(** * Melody generator: the text encoding of scores, the vocabulary map,
      the autoregressive generation loop and the notation renderer.

    Shallow embedding of [preprocessing.py] and [app.py].

    Conventions of the model.
    - Python [int] is [Z]; a quarter length (music21 keeps it as an exact
      dyadic float or a [Fraction]) is a rational [Q], and arithmetic on
      quarter lengths is exact.  The code computes in floating point, which
      is exact at the step of 0.25 the repository uses: a quotient by 0.25
      only shifts the exponent, and its integer part is that of the exact
      quotient for a quarter length [a/b] with [a < 2^51] and [b <= 65535]
      ([music21_quarter_length]); a product of 0.25 and a step count is
      exact, and music21 keeps it as it is.  The facts that depend on the
      value of a quotient or of a product are stated at this step.
    - A note or rest built by the renderer is taken to keep the pitch and
      the quarter length it is given.  music21 does so for a MIDI number
      from 12 to 127 and a positive quarter length; it reads an integer
      below 12 as a pitch class and a quarter length of zero as the default
      of one.  The facts about rendered pitches and durations are stated
      inside these bounds.
    - A Python [str] is a [string]; its characters are the code points
      below 256.
    - A Python [dict] is an association list in insertion order.
    - An exception is a value of [exception]; code that can raise returns a
      [result].
    - music21 scores, the Keras model and NumPy's random generator are
      external: they enter as section variables. *)

From Stdlib Require Import ZArith QArith Qround List String Ascii Bool Lia.
From Stdlib Require Import DecimalString DecimalZ.
Import ListNotations.

Open Scope string_scope.
Open Scope Z_scope.
Open Scope list_scope.

(* ================================================================== *)
(** * Python primitives *)
(* ================================================================== *)

(** ** Exceptions *)

Inductive exception : Type :=
| KeyError (key : string)
| IndexError
| ValueError
| ZeroDivisionError
| FileNotFoundError (path : string)
| JSONDecodeError
| ExternalError (code : nat).

Inductive result (A : Type) : Type :=
| Ok (a : A)
| Raise (e : exception).

Arguments Ok {A} a.
Arguments Raise {A} e.

Definition bind {A B : Type} (r : result A) (k : A -> result B) : result B :=
  match r with
  | Ok a => k a
  | Raise e => Raise e
  end.

Declare Scope py_scope.
Delimit Scope py_scope with py.
Notation "x <- r ;; k" := (bind r (fun x => k))
  (at level 61, r at next level, right associativity) : py_scope.
Open Scope py_scope.

(** [[f(x) for x in l]] where [f] can raise: the first failure wins. *)
Fixpoint comprehension {A B : Type} (f : A -> result B) (l : list A)
  : result (list B) :=
  match l with
  | [] => Ok []
  | x :: l' => y <- f x ;; ys <- comprehension f l' ;; Ok (y :: ys)
  end.

(** ** Integers, ranges and slices *)

(** [range(n)]: empty when [n <= 0]. *)
Definition range (n : Z) : list Z := map Z.of_nat (seq 0 (Z.to_nat n)).

(** [enumerate(l)]. *)
Definition enumerate {A : Type} (l : list A) : list (Z * A) :=
  combine (range (Z.of_nat (List.length l))) l.

(** A slice bound: a negative one counts from the end, and both ends are
    clipped to the list. *)
Definition clamp_index (len k : Z) : Z :=
  if k <? 0 then Z.max 0 (k + len) else Z.min k len.

(** [l[i:j]]. *)
Definition slice {A : Type} (i j : Z) (l : list A) : list A :=
  let n := Z.of_nat (List.length l) in
  let i := clamp_index n i in
  let j := clamp_index n j in
  firstn (Z.to_nat (j - i)) (skipn (Z.to_nat i) l).

(** [l[start:]] with Python's treatment of a negative or oversized start. *)
Definition slice_from {A : Type} (start : Z) (l : list A) : list A :=
  skipn (Z.to_nat (clamp_index (Z.of_nat (List.length l)) start)) l.

(** [int(q)] on a number: truncation toward zero. *)
Definition int_of_Q (q : Q) : Z := Z.quot (Qnum q) (Zpos (Qden q)).

(** [x in l] for numbers: comparison by numeric equality. *)
Definition Q_in (x : Q) (l : list Q) : bool := existsb (Qeq_bool x) l.

(** [l[k]]. *)
Definition item {A : Type} (l : list A) (k : Z) : result A :=
  let n := Z.of_nat (List.length l) in
  let k := if k <? 0 then k + n else k in
  if k <? 0 then Raise IndexError
  else match nth_error l (Z.to_nat k) with
       | Some x => Ok x
       | None => Raise IndexError
       end.

(** ** Strings *)

(** [str.isspace] on one character (code points below 256). *)
Definition isspace (c : ascii) : bool :=
  let n := nat_of_ascii c in
  ((9 <=? n) && (n <=? 13) || (28 <=? n) && (n <=? 32)
   || (n =? 133) || (n =? 160))%nat.

Definition flush (word : string) : list string :=
  if (word =? "")%string then [] else [word].

(** [split_from word s]: [word] is the token being read. *)
Fixpoint split_from (word : string) (s : string) : list string :=
  match s with
  | EmptyString => flush word
  | String c s' =>
      if isspace c then flush word ++ split_from "" s'
      else split_from (word ++ String c "")%string s'
  end.

(** [s.split()]: the maximal runs of non-whitespace characters. *)
Definition split (s : string) : list string := split_from "" s.

(** [sep.join(l)]. *)
Definition join (sep : string) (l : list string) : string :=
  String.concat sep l.

(** [s * n]. *)
Fixpoint str_mul (s : string) (n : nat) : string :=
  match n with
  | O => ""
  | S n' => (s ++ str_mul s n')%string
  end.

(** [s[:-1]]. *)
Fixpoint drop_last (s : string) : string :=
  match s with
  | EmptyString => ""
  | String c EmptyString => ""
  | String c s' => String c (drop_last s')
  end.

(** [str(z)] for an [int]. *)
Definition str_of_int (z : Z) : string := NilZero.string_of_int (Z.to_int z).

(** The whitespace [int] skips around a numeral: the whitespace of C
    and, from code point 128 on, what [str.isspace] accepts.  The
    separators 28 to 31, at which [str.split] splits, are not skipped. *)
Definition int_isspace (c : ascii) : bool :=
  let n := nat_of_ascii c in
  ((9 <=? n) && (n <=? 13) || (n =? 32) || (n =? 133) || (n =? 160))%nat.

Fixpoint lstrip (s : string) : string :=
  match s with
  | EmptyString => ""
  | String c s' => if int_isspace c then lstrip s' else s
  end.

Definition reverse (s : string) : string :=
  string_of_list_ascii (rev (list_ascii_of_string s)).

Definition strip (s : string) : string := reverse (lstrip (reverse (lstrip s))).

Definition isdigit (c : ascii) : bool :=
  let n := nat_of_ascii c in ((48 <=? n) && (n <=? 57))%nat.

(** Digits, with single underscores allowed between two digits.
    [prev] tells whether the previous character was a digit. *)
Fixpoint grouped_digits (prev : bool) (s : string) : bool :=
  match s with
  | EmptyString => prev
  | String c s' =>
      if isdigit c then grouped_digits true s'
      else if (c =? "_")%char && prev then grouped_digits false s'
      else false
  end.

Fixpoint remove_underscores (s : string) : string :=
  match s with
  | EmptyString => ""
  | String c s' =>
      if (c =? "_")%char then remove_underscores s'
      else String c (remove_underscores s')
  end.

(** A numeral without its sign, and a numeral without a plus sign. *)
Definition unsigned_part (s : string) : string :=
  match s with
  | EmptyString => ""
  | String c s' => if (c =? "-")%char || (c =? "+")%char then s' else s
  end.

Definition drop_plus (s : string) : string :=
  match s with
  | EmptyString => ""
  | String c s' => if (c =? "+")%char then s' else s
  end.

(** The number of digits of a numeral, leading zeros included. *)
Fixpoint count_digits (s : string) : nat :=
  match s with
  | EmptyString => O
  | String c s' => ((if isdigit c then 1 else 0) + count_digits s')%nat
  end.

(** The default of [sys.get_int_max_str_digits()]. *)
Definition int_max_str_digits : nat := 4300.

(** [int(s)] for a string, base 10: optional surrounding whitespace, an
    optional sign, digits with optional grouping underscores; a numeral
    of more than [int_max_str_digits] digits is refused, with the
    [ValueError] of every other refusal. *)
Definition int_of_str (s : string) : result Z :=
  let s := strip s in
  if grouped_digits false (unsigned_part s) then
    if (count_digits (unsigned_part s) <=? int_max_str_digits)%nat then
      match NilZero.int_of_string (remove_underscores (drop_plus s)) with
      | Some d => Ok (Z.of_int d)
      | None => Raise ValueError
      end
    else Raise ValueError
  else Raise ValueError.

(** ** Dictionaries: association lists in insertion order *)

Definition dict (V : Type) : Type := list (string * V).

Fixpoint dict_get {V : Type} (d : dict V) (k : string) : option V :=
  match d with
  | [] => None
  | (k', v) :: d' => if (k' =? k)%string then Some v else dict_get d' k
  end.

(** [d[k]]. *)
Definition subscript {V : Type} (d : dict V) (k : string) : result V :=
  match dict_get d k with
  | Some v => Ok v
  | None => Raise (KeyError k)
  end.

(** [d[k] = v]: an existing key keeps its position. *)
Fixpoint dict_set {V : Type} (d : dict V) (k : string) (v : V) : dict V :=
  match d with
  | [] => [(k, v)]
  | (k', v') :: d' =>
      if (k' =? k)%string then (k, v) :: d' else (k', v') :: dict_set d' k v
  end.

Definition keys {V : Type} (d : dict V) : list string := map fst d.
Definition values {V : Type} (d : dict V) : list V := map snd d.

(** ** Files *)

Inductive file : Type :=
| Text (s : string)
| Json (mappings : dict Z).

(** The file store: path to content.  A JSON object of string keys and
    integer values is stored as the dictionary it denotes. *)
Definition store : Type := dict file.

Definition write (fs : store) (path : string) (f : file) : store :=
  dict_set fs path f.

(** [open(path).read()].  No caller reads a JSON file as text; the model
    reports that case as an external failure. *)
Definition load (fs : store) (file_path : string) : result string :=
  match dict_get fs file_path with
  | Some (Text s) => Ok s
  | Some (Json _) => Raise (ExternalError 0)
  | None => Raise (FileNotFoundError file_path)
  end.

(** [json.load(open(path))]. *)
Definition json_load (fs : store) (path : string) : result (dict Z) :=
  match dict_get fs path with
  | Some (Json d) => Ok d
  | Some (Text _) => Raise JSONDecodeError
  | None => Raise (FileNotFoundError path)
  end.

(* ================================================================== *)
(** * preprocessing.py *)
(* ================================================================== *)

Definition SAVE_DIR : string := "Dataset".
Definition SINGLE_FILE_DATASET : string := "Dataset_file".
Definition MAPPING_PATH : string := "Mapping.json".
Definition SEQUENCE_LENGTH : Z := 64.

Definition ACCEPTABLE_DURATIONS : list Q :=
  [1 # 4; 1 # 2; 3 # 4; 1; 3 # 2; 2; 3; 4]%Q.

(** An element of [song.flat.notesAndRests]: a note with its MIDI pitch, or
    a rest, each with its quarter length.  These are the two classes the
    code handles; other music21 elements are outside the model. *)
Inductive event : Type :=
| Note (midi : Z) (quarterLength : Q)
| Rest (quarterLength : Q).

Definition quarterLength (e : event) : Q :=
  match e with
  | Note _ q => q
  | Rest q => q
  end.

(** What [encode_song] appends to its list: an [int] or a [str]. *)
Inductive sym : Type :=
| Midi (z : Z)
| Str (s : string).

Definition str (x : sym) : string :=
  match x with
  | Midi z => str_of_int z
  | Str s => s
  end.

(** [song] stands for [song.flat.notesAndRests].  The second parameter is
    never read: the test is against the global list. *)
Fixpoint has_acceptable_durations (song : list event)
    (acceptable_durations : list Q) : bool :=
  match song with
  | [] => true
  | note :: song' =>
      if negb (Q_in (quarterLength note) ACCEPTABLE_DURATIONS) then false
      else has_acceptable_durations song' acceptable_durations
  end.

(** The inner loop of [encode_song]: [for step in range(steps)]. *)
Definition append_steps (symbol : sym) (steps : Z)
    (encoded_song : list sym) : list sym :=
  fold_left
    (fun encoded_song step =>
       if step =? 0 then encoded_song ++ [symbol]
       else encoded_song ++ [Str "_"])
    (range steps) encoded_song.

(** One iteration of the outer loop of [encode_song].  The quotient is
    the exact one; the code divides in floating point, which gives the
    same number of steps at a time step of 0.25 for the quarter lengths of
    [music21_quarter_length] (at a time step such as 0.1, which is not a
    power of two, the rounded quotient can have another integer part). *)
Definition encode_event (time_step : Q) (encoded_song : list sym)
    (event : event) : result (list sym) :=
  let symbol :=
    match event with
    | Note midi _ => Midi midi
    | Rest _ => Str "r"
    end in
  if Qeq_bool time_step 0 then Raise ZeroDivisionError
  else
    let steps := int_of_Q (quarterLength event / time_step) in
    Ok (append_steps symbol steps encoded_song).

(** The list [encoded_song] at the end of the outer loop. *)
Definition encode_events (song : list event) (time_step : Q)
    : result (list sym) :=
  fold_left
    (fun acc event => encoded_song <- acc ;; encode_event time_step encoded_song event)
    song (Ok []).

Definition encode_song (song : list event) (time_step : Q) : result string :=
  encoded_song <- encode_events song time_step ;;
  Ok (join " " (map str encoded_song)).

Definition default_time_step : Q := 1 # 4.

(** The inner loop of [create_mapping]. *)
Definition build_mappings (vocab : list string) : dict Z :=
  fold_left (fun mappings '(i, symbol) => dict_set mappings symbol i)
    (enumerate vocab) [].

(** [[k for k, v in mappings.items() if v == output_int][0]]. *)
Definition key_of_value (mappings : dict Z) (output_int : Z) : result string :=
  match filter (fun kv => snd kv =? output_int) mappings with
  | [] => Raise IndexError
  | (k, _) :: _ => Ok k
  end.

Section Preprocessing.

(** A parsed score, with the two music21 operations the pipeline calls
    on it. *)
Variable score : Type.
Variable flat_notesAndRests : score -> list event.
Variable transpose : score -> result score.

(** [load_songs_in_kern]: the parsed scores of a directory. *)
Variable load_songs_in_kern : string -> result (list score).

(** [os.walk] flattened to the file paths it yields, in its order. *)
Variable os_walk : store -> string -> list string.

(** [list(set(l))]: the order is the interpreter's. *)
Variable list_set : list string -> list string.

(** [keras.utils.to_categorical(y, num_classes)] on a list of windows; the
    result is a NumPy array. *)
Variable tensor : Type.
Variable to_categorical : list (list Z) -> Z -> result tensor.

(** The body of the loop of [preprocess] for song number [i]. *)
Definition preprocess_song (fs : store) (i : Z) (song : score)
    : result store :=
  if negb (has_acceptable_durations (flat_notesAndRests song)
             ACCEPTABLE_DURATIONS)
  then Ok fs
  else
    song <- transpose song ;;
    encoded_song <- encode_song (flat_notesAndRests song) default_time_step ;;
    let save_path := (SAVE_DIR ++ "/" ++ str_of_int i)%string in
    Ok (write fs save_path (Text encoded_song)).

Definition preprocess_songs (songs : list (Z * score)) (fs : store)
    : result store :=
  fold_left (fun acc '(i, song) => fs <- acc ;; preprocess_song fs i song)
    songs (Ok fs).

Definition preprocess (dataset_path : string) (fs : store) : result store :=
  songs <- load_songs_in_kern dataset_path ;;
  preprocess_songs (enumerate songs) fs.

Definition create_single_file_dataset (dataset_path dataset_file_path : string)
    (sequence_length : Z) (fs : store) : result (store * string) :=
  let new_song_delimeter := str_mul "/ " (Z.to_nat sequence_length) in
  songs <-
    fold_left
      (fun acc file_path =>
         songs <- acc ;;
         song <- load fs file_path ;;
         Ok (songs ++ song ++ " " ++ new_song_delimeter)%string)
      (os_walk fs dataset_path) (Ok "") ;;
  let songs := drop_last songs in
  Ok (write fs dataset_file_path (Text songs), songs).

Definition create_mapping (songs : string) (mapping_path : string)
    (fs : store) : store :=
  let songs := split songs in
  let vocab := list_set songs in
  let mappings := build_mappings vocab in
  write fs mapping_path (Json mappings).

Definition convert_songs_to_int (songs : string) (fs : store)
    : result (list Z) :=
  mappings <- json_load fs MAPPING_PATH ;;
  let songs := split songs in
  comprehension (fun symbol => subscript mappings symbol) songs.

Definition generate_training_sequences (sequence_length : Z) (fs : store)
    : result (tensor * list Z) :=
  songs <- load fs SINGLE_FILE_DATASET ;;
  int_songs <- convert_songs_to_int songs fs ;;
  let num_sequences := Z.of_nat (List.length int_songs) - sequence_length in
  let inputs := map (fun i => slice i (i + sequence_length) int_songs)
                  (range num_sequences) in
  targets <- comprehension (fun i => item int_songs (i + sequence_length))
               (range num_sequences) ;;
  let vocabulary := Z.of_nat (List.length (nodup Z.eq_dec int_songs)) in
  inputs <- to_categorical inputs vocabulary ;;
  Ok (inputs, targets).

End Preprocessing.

(* ================================================================== *)
(** * app.py *)
(* ================================================================== *)

(** ** The renderer *)

(** The local variables of [save_melody]; [stream] holds the music21
    objects appended so far, which are again notes and rests. *)
Record render_state : Type := {
  start_symbol : option string;
  step_counter : Z;
  stream : list event
}.

(** One iteration of the loop of [save_melody], at index [i] of a melody
    of length [len].  [m21.note.Note] and [m21.note.Rest] are the
    constructors of [event]: the object keeps the pitch and the quarter
    length it is given (see the conventions for where music21 does). *)
Definition save_step (step_duration : Q) (len : Z) (st : render_state)
    (i : Z) (symbol : string) : result render_state :=
  if negb (symbol =? "_")%string || (i + 1 =? len) then
    st <-
      match start_symbol st with
      | Some start =>
          let quarter_length_duration :=
            (step_duration * inject_Z (step_counter st))%Q in
          m21_event <-
            (if (start =? "r")%string then Ok (Rest quarter_length_duration)
             else pitch <- int_of_str start ;;
                  Ok (Note pitch quarter_length_duration)) ;;
          Ok {| start_symbol := start_symbol st;
                step_counter := 1;
                stream := stream st ++ [m21_event] |}
      | None => Ok st
      end ;;
    Ok {| start_symbol := Some symbol;
          step_counter := step_counter st;
          stream := stream st |}
  else
    Ok {| start_symbol := start_symbol st;
          step_counter := step_counter st + 1;
          stream := stream st |}.

Definition save_loop (step_duration : Q) (len : Z)
    (items : list (Z * string)) (st : render_state) : result render_state :=
  fold_left
    (fun acc '(i, symbol) => st <- acc ;; save_step step_duration len st i symbol)
    items (Ok st).

(** [save_melody]: the result is the stream handed to [stream.write]. *)
Definition save_melody (melody : list string) (step_duration : Q)
    : result (list event) :=
  let st := {| start_symbol := None; step_counter := 1; stream := [] |} in
  st <- save_loop step_duration (Z.of_nat (List.length melody))
          (enumerate melody) st ;;
  Ok (stream st).

Definition default_step_duration : Q := 1 # 4.

(** ** The generator *)

(** A run of [generate_melody]: what it returns or raises, and the values
    [_sample_with_temperature] returned during the run, in order.  The
    second field is not program state; it records the sampling
    iterations that took place. *)
Record run : Type := {
  outcome : result (list string);
  sampled : list Z
}.

Section MelodyGenerator.

(** A NumPy probability vector. *)
Variable probabilities : Type.

(** [keras.utils.to_categorical(seed, num_classes)] followed by
    [self.model.predict(...)[0]]. *)
Variable model_predict : list Z -> Z -> result probabilities.

(** [_sample_with_temperature]; the last argument is the number of the
    draw and stands for the state of NumPy's generator. *)
Variable _sample_with_temperature : probabilities -> Q -> Z -> result Z.

Variable _mappings : dict Z.

Definition _start_symbols : list string :=
  repeat "/" (Z.to_nat SEQUENCE_LENGTH).

(** The loop of [generate_melody] over the remaining indices [steps] of
    [range(num_steps)]. *)
Fixpoint generate_loop (max_sequence_length : Z) (temperature : Q)
    (steps : list Z) (seed : list Z) (melody : list string)
    (trace : list Z) : run :=
  match steps with
  | [] => {| outcome := Ok melody; sampled := trace |}
  | i :: steps' =>
      let seed := slice_from (- max_sequence_length) seed in
      match model_predict seed (Z.of_nat (List.length _mappings)) with
      | Raise e => {| outcome := Raise e; sampled := trace |}
      | Ok probabilities =>
          match _sample_with_temperature probabilities temperature i with
          | Raise e => {| outcome := Raise e; sampled := trace |}
          | Ok output_int =>
              let trace := trace ++ [output_int] in
              let seed := seed ++ [output_int] in
              match key_of_value _mappings output_int with
              | Raise e => {| outcome := Raise e; sampled := trace |}
              | Ok output_symbol =>
                  if (output_symbol =? "/")%string
                  then {| outcome := Ok melody; sampled := trace |}
                  else generate_loop max_sequence_length temperature steps'
                         seed (melody ++ [output_symbol]) trace
              end
          end
      end
  end.

Definition generate_melody (seed : string) (num_steps : Z)
    (max_sequence_length : Z) (temperature : Q) : run :=
  let seed := split seed in
  let melody := seed in
  let seed := _start_symbols ++ seed in
  match comprehension (fun symbol => subscript _mappings symbol) seed with
  | Raise e => {| outcome := Raise e; sampled := [] |}
  | Ok seed =>
      generate_loop max_sequence_length temperature (range num_steps)
        seed melody []
  end.

(** The [/predict] route, up to the rendering of the page. *)
Definition predict (seed : string) : result string :=
  melody <- outcome (generate_melody seed 500 SEQUENCE_LENGTH (3 # 10)) ;;
  _ <- save_melody melody default_step_duration ;;
  let melody := join " " melody in
  Ok ("The generated melody: " ++ melody)%string.

End MelodyGenerator.

(* ================================================================== *)
(** * Closed forms and the spec's wording *)
(* ================================================================== *)

(** The onset token of an event. *)
Definition onset (e : event) : sym :=
  match e with
  | Note midi _ => Midi midi
  | Rest _ => Str "r"
  end.

(** What a run of [steps] iterations appends for one event. *)
Definition step_tokens (symbol : sym) (steps : Z) : list sym :=
  match Z.to_nat steps with
  | O => []
  | S holds => symbol :: repeat (Str "_") holds
  end.

Definition event_tokens (time_step : Q) (e : event) : list sym :=
  step_tokens (onset e) (int_of_Q (quarterLength e / time_step)).

(** [round(q)] of Python 3: to the nearest integer, a tie to the even one. *)
Definition round_half_even (q : Q) : Z :=
  let f := Qfloor q in
  match (q - inject_Z f ?= 1 # 2)%Q with
  | Lt => f
  | Gt => f + 1
  | Eq => if Z.even f then f else f + 1
  end.

(** The encoder as the spec words it: one onset token, then
    [round(duration / time_step) - 1] hold tokens. *)
Definition spec_event_tokens (time_step : Q) (e : event) : list sym :=
  onset e :: repeat (Str "_")
               (Z.to_nat (round_half_even (quarterLength e / time_step) - 1)).

(** The file [preprocess] writes song number [i] to. *)
Definition song_path (i : Z) : string :=
  (SAVE_DIR ++ "/" ++ str_of_int i)%string.

(** The sum of the quarter lengths of a song. *)
Definition total_duration (song : list event) : Q :=
  fold_right (fun e acc => quarterLength e + acc)%Q 0%Q song.

(** A token as a file holds it: not empty and free of whitespace. *)
Fixpoint no_space (s : string) : bool :=
  match s with
  | EmptyString => true
  | String c s' => negb (isspace c) && no_space s'
  end.

Definition is_token (s : string) : Prop := s <> "" /\ no_space s = true.

(** The token stream of a song, as the list of its token strings. *)
Definition song_tokens (time_step : Q) (song : list event) : list string :=
  map str (List.concat (map (event_tokens time_step) song)).

Section PipelineOutcome.

Variable score : Type.
Variable flat_notesAndRests : score -> list event.
Variable transpose : score -> result score.

(** The test [preprocess] applies to a loaded score. *)
Definition accepted (song : score) : bool :=
  has_acceptable_durations (flat_notesAndRests song) ACCEPTABLE_DURATIONS.

(** The text [preprocess] saves for a transposed song. *)
Definition encoded (song : score) : string :=
  join " " (song_tokens default_time_step (flat_notesAndRests song)).

(** What [preprocess] leaves at the path of song number [i]: for an
    accepted song the encoding of its transposition, for a rejected
    song whatever was there before. *)
Definition processed (fs fs' : store) (i : Z) (song : score) : Prop :=
  if accepted song
  then exists song', transpose song = Ok song'
         /\ dict_get fs' (song_path i) = Some (Text (encoded song'))
  else dict_get fs' (song_path i) = dict_get fs (song_path i).

End PipelineOutcome.

Arguments accepted {score} flat_notesAndRests song.
Arguments encoded {score} flat_notesAndRests song.
Arguments processed {score} flat_notesAndRests transpose fs fs' i song.

(** A two-song corpus: the second song has a thirty-second note and is
    rejected; transposition (here: up a tone) fails on rejected songs. *)
Definition sample_corpus : list (list event) :=
  [ [Note 60 1; Rest (1 # 2)]; [Note 62 (1 # 8); Note 64 1] ].

Definition sample_transpose (song : list event) : result (list event) :=
  if has_acceptable_durations song ACCEPTABLE_DURATIONS
  then Ok (map (fun e => match e with
                         | Note midi q => Note (midi + 2) q
                         | Rest q => Rest q
                         end) song)
  else Raise (ExternalError 1).

(** The string [create_single_file_dataset] accumulates before it drops
    the last character: each song, a space, the delimiter. *)
Definition merged (delimiter : string) (contents : list string) : string :=
  fold_right (fun song rest => song ++ " " ++ delimiter ++ rest)%string
    "" contents.

(** The tokens of the merged corpus: each song's tokens followed by [n]
    boundary tokens. *)
Definition merged_tokens (n : nat) (songs : list (list string)) : list string :=
  List.concat (map (fun tokens => tokens ++ repeat "/" n) songs).

(** Every token followed by one space. *)
Definition spaced (tokens : list string) : string :=
  fold_right (fun token rest => token ++ " " ++ rest)%string "" tokens.

Definition ends_with_space (s : string) : Prop :=
  exists y, s = (y ++ " ")%string.

(** Samples drawn before the last one decoded to a symbol other than the
    boundary marker. *)
Definition boundary_only_last (mappings : dict Z) (samples : list Z) : Prop :=
  forall pre z post, samples = pre ++ z :: post -> post <> [] ->
  exists symbol, key_of_value mappings z = Ok symbol /\ symbol <> "/".

(** A run that returned: the appended symbols are the decoded samples,
    either all [budget] of them or all but a final boundary marker. *)
Definition returned (mappings : dict Z) (budget : nat) (samples : list Z)
    (appended : list string) : Prop :=
  ~ In "/" appended
  /\ ((List.length samples = budget
       /\ map (key_of_value mappings) samples = map Ok appended)
      \/ map (key_of_value mappings) samples = map Ok appended ++ [Ok "/"]).

(** ** The renderer on an encoded song *)

Fixpoint all_digits (s : string) : bool :=
  match s with
  | EmptyString => true
  | String c s' => isdigit c && all_digits s'
  end.

(** The number of steps [encode_song] gives an event. *)
Definition steps_of (time_step : Q) (e : event) : Z :=
  int_of_Q (quarterLength e / time_step).

(** The note or rest the renderer builds for the onset of [e] held for
    [steps] steps. *)
Definition rendered (step_duration : Q) (e : event) (steps : Z) : event :=
  match e with
  | Note midi _ => Note midi (step_duration * inject_Z steps)
  | Rest _ => Rest (step_duration * inject_Z steps)
  end.

(** The state of the renderer in terms of the event it has pending: the
    event whose onset it read last, with the steps counted for it. *)
Definition pending_state (pending : option (event * Z))
    (stream : list event) : render_state :=
  match pending with
  | None => {| start_symbol := None; step_counter := 1; stream := stream |}
  | Some (e, k) =>
      {| start_symbol := Some (str (onset e)); step_counter := k;
         stream := stream |}
  end.

(** What the renderer appends when it passes on from the pending event. *)
Definition flushed (step_duration : Q) (pending : option (event * Z))
    : list event :=
  match pending with
  | None => []
  | Some (e, k) => [rendered step_duration e k]
  end.

(** An onset with its hold tokens. *)
Definition group_tokens (g : event * Z) : list string :=
  map str (step_tokens (onset (fst g)) (snd g)).

(** The pending event and the stream after the tokens of [groups]. *)
Fixpoint after_groups (step_duration : Q) (groups : list (event * Z))
    (pending : option (event * Z)) (stream : list event)
    : option (event * Z) * list event :=
  match groups with
  | [] => (pending, stream)
  | g :: groups' =>
      after_groups step_duration groups' (Some g)
        (stream ++ flushed step_duration pending)
  end.

(** The items of [enumerate] from index [a] on. *)
Definition number (a : nat) (l : list string) : list (Z * string) :=
  combine (map Z.of_nat (seq a (List.length l))) l.

(* ================================================================== *)
(** * The rest of preprocessing.py: the loader and the entry point *)
(* ================================================================== *)

Definition KERN_DATASET_PATH : string := "Kern_Dataset/erk".

(** [s[-3:]] on a string. *)
Definition last3 (s : string) : string :=
  string_of_list_ascii (slice_from (- 3) (list_ascii_of_string s)).

Section Corpus.

Variable score : Type.
Variable flat_notesAndRests : score -> list event.
Variable transpose : score -> result score.

(** [m21.converter.parse] on a path. *)
Variable converter_parse : string -> result score.

(** [os.path.join]. *)
Variable os_path_join : string -> string -> string.

(** [os.walk] on the directory of notation files: for each directory
    visited, its path and the names of its files (the list of
    subdirectories is not read). *)
Variable os_walk_tree : string -> list (string * list string).

(** [os.walk] on the store, flattened to file paths. *)
Variable os_walk : store -> string -> list string.

Variable list_set : list string -> list string.

(** The inner loop of [load_songs_in_kern]: the files of one directory. *)
Definition load_files (path : string) (files : list string)
    (songs : list score) : result (list score) :=
  fold_left
    (fun acc file =>
       songs <- acc ;;
       if (last3 file =? "krn")%string then
         song <- converter_parse (os_path_join path file) ;;
         Ok (songs ++ [song])
       else Ok songs)
    files (Ok songs).

Definition load_songs_in_kern (dataset_path : string)
    : result (list score) :=
  fold_left
    (fun acc '(path, files) => songs <- acc ;; load_files path files songs)
    (os_walk_tree dataset_path) (Ok []).

(** [main]; the store it returns is the disk after the three stages. *)
Definition main (fs : store) : result store :=
  fs <- preprocess score flat_notesAndRests transpose load_songs_in_kern
          KERN_DATASET_PATH fs ;;
  written <- create_single_file_dataset os_walk SAVE_DIR SINGLE_FILE_DATASET
               SEQUENCE_LENGTH fs ;;
  let '(fs, songs) := written in
  Ok (create_mapping list_set songs MAPPING_PATH fs).

End Corpus.

(** ** Vocabulary of the facts below *)

(** [file] ends with the three characters [krn]. *)
Definition ends_with_krn (file : string) : Prop :=
  exists stem, file = (stem ++ "krn")%string.

(** The paths [load_songs_in_kern] parses: in each directory, in order,
    the files whose name ends with [krn]. *)
Definition kern_paths (os_path_join : string -> string -> string)
    (tree : list (string * list string)) : list string :=
  List.concat
    (map (fun '(path, files) =>
            map (os_path_join path)
              (filter (fun file => (last3 file =? "krn")%string) files))
       tree).

(** A quarter length for which the floating-point quotient by 0.25 has
    the integer part of the exact quotient: a fraction [a/b] that is not
    negative, with [a < 2^51] and [b <= 65535], the largest denominator
    music21 gives a quarter length it computes. *)
Definition music21_quarter_length (d : Q) : bool :=
  (0 <=? Qnum d) && (Qnum d <? 2 ^ 51) && (Zpos (Qden d) <=? 65535).

(** The pitch of a note is a MIDI number, from 0 to 127. *)
Definition midi_number (e : event) : bool :=
  match e with
  | Note midi _ => (0 <=? midi) && (midi <=? 127)
  | Rest _ => true
  end.

(** The pitch of a note is a MIDI number that music21 does not read as a
    pitch class. *)
Definition midi_pitch (e : event) : bool :=
  match e with
  | Note midi _ => (12 <=? midi) && (midi <=? 127)
  | Rest _ => true
  end.

(** A token that, if [int] accepts it, denotes a MIDI number. *)
Definition midi_numeral (symbol : string) : bool :=
  match int_of_str symbol with
  | Ok pitch => (0 <=? pitch) && (pitch <=? 127)
  | Raise _ => true
  end.

(** A start symbol the renderer can turn into a music21 object: the rest
    marker, or a numeral of [int]. *)
Definition renderable (symbol : string) : bool :=
  (symbol =? "r")%string
  || match int_of_str symbol with
     | Ok _ => true
     | Raise _ => false
     end.

(** A token the renderer reads without failing later: a hold, or a
    renderable onset. *)
Definition readable (symbol : string) : bool :=
  (symbol =? "_")%string || renderable symbol.

(** The onset tokens of a melody: those that are not holds. *)
Definition onsets (melody : list string) : list string :=
  filter (fun symbol => negb (symbol =? "_")%string) melody.

(** The number of steps the renderer has counted for the pending event. *)
Definition pending_steps (st : render_state) : Z :=
  match start_symbol st with
  | Some _ => step_counter st
  | None => step_counter st - 1
  end.

(** One if an event is pending, zero if none is. *)
Definition pending_count (st : render_state) : nat :=
  match start_symbol st with
  | Some _ => 1%nat
  | None => 0%nat
  end.

(** The pending start symbol, if any, is renderable. *)
Definition pending_ok (st : render_state) : Prop :=
  match start_symbol st with
  | Some start => renderable start = true
  | None => True
  end.

(** A start symbol that cannot be rendered is pending. *)
Definition pending_bad (st : render_state) : Prop :=
  exists start, start_symbol st = Some start /\ renderable start = false.

(** What reading [n] tokens away from the last index does to the state
    of the renderer: every onset token becomes one pending or emitted
    event, and every token adds one step. *)
Definition reads (step_duration : Q) (tokens : list string)
    (st st' : render_state) : Prop :=
  pending_ok st'
  /\ (List.length (stream st') + pending_count st'
      = List.length (stream st) + pending_count st
        + List.length (onsets tokens))%nat
  /\ (total_duration (stream st')
        + step_duration * inject_Z (pending_steps st')
      == total_duration (stream st)
         + step_duration * inject_Z (pending_steps st)
         + step_duration * inject_Z (Z.of_nat (List.length tokens)))%Q
  /\ (start_symbol st' = None
      <-> start_symbol st = None /\ onsets tokens = []).

(** The sliding windows of [generate_training_sequences]. *)
Definition windows (sequence_length : nat) (int_songs : list Z)
    : list (list Z) :=
  map (fun i => firstn sequence_length (skipn i int_songs))
    (seq 0 (List.length int_songs - sequence_length)).

(* ================================================================== *)
(** * Facts about the Python primitives *)
(* ================================================================== *)

Example split_runs_of_whitespace :
  split "  60 _  r
 _ / " = ["60"; "_"; "r"; "_"; "/"].
Proof. reflexivity. Qed.

Example int_of_str_examples :
  map int_of_str [" 72 "; "-3"; "+1_000"; "1__0"; "_"; "/"; ""]
  = [Ok 72; Ok (-3); Ok 1000; Raise ValueError; Raise ValueError;
     Raise ValueError; Raise ValueError].
Proof. reflexivity. Qed.

(** [int] does not skip the separators that [split] splits at, and counts
    the digits of a numeral. *)
Example int_of_str_limits :
  int_of_str (String (ascii_of_nat 28) "5") = Raise ValueError
  /\ split (String (ascii_of_nat 28) "5") = ["5"]
  /\ int_of_str (String (ascii_of_nat 160) "5") = Ok 5
  /\ int_of_str (str_mul "0" 4300) = Ok 0
  /\ int_of_str (str_mul "0" 4301) = Raise ValueError.
Proof. repeat split; vm_compute; reflexivity. Qed.

Example slice_from_examples :
  slice_from (- 2) [1; 2; 3] = [2; 3] /\ slice_from (- 0) [1; 2; 3] = [1; 2; 3]
  /\ slice_from (- 5) [1; 2; 3] = [1; 2; 3] /\ slice_from 2 [1; 2; 3] = [3].
Proof. repeat split. Qed.

(** The example of the source: middle C for a quarter note. *)
Example encode_song_quarter_note :
  encode_song [Note 60 1] default_time_step = Ok "60 _ _ _".
Proof. reflexivity. Qed.

Example encode_song_mixed :
  encode_song [Note 60 (3 # 2); Rest (1 # 2); Note 64 (1 # 3)] default_time_step
  = Ok "60 _ _ _ _ _ r _ 64".
Proof. reflexivity. Qed.

Lemma str_append_nil_r (s : string) : (s ++ "")%string = s.
Proof. induction s as [|c s IH]; simpl; congruence. Qed.

Lemma str_append_assoc (a b c : string) :
  ((a ++ b) ++ c)%string = (a ++ (b ++ c))%string.
Proof. induction a as [|x a IH]; simpl; congruence. Qed.

(** A whitespace character ends the token being read. *)
Lemma split_from_space (a : string) : forall (word : string) c (b : string),
  isspace c = true ->
  split_from word (a ++ String c b) = split_from word a ++ split_from "" b.
Proof.
  induction a as [|x a IH]; intros word c b Hc; simpl.
  - now rewrite Hc.
  - destruct (isspace x).
    + rewrite IH by assumption. now rewrite app_assoc.
    + now apply IH.
Qed.

(** Characters that are not whitespace extend the token being read. *)
Lemma split_from_no_space (a : string) : forall (word b : string),
  no_space a = true ->
  split_from word (a ++ b) = split_from (word ++ a) b.
Proof.
  induction a as [|x a IH]; intros word b Ha; simpl in *.
  - now rewrite str_append_nil_r.
  - apply andb_true_iff in Ha as [Hx Ha].
    apply negb_true_iff in Hx. rewrite Hx.
    rewrite IH by assumption.
    now rewrite str_append_assoc.
Qed.

Lemma split_token (t : string) : is_token t -> split t = [t].
Proof.
  intros [Hne Hns]. unfold split.
  rewrite <- (str_append_nil_r t) at 1.
  rewrite split_from_no_space by assumption. simpl.
  unfold flush. destruct (String.eqb_spec t ""); congruence.
Qed.

Lemma split_append_space (a b : string) :
  split (a ++ String " " b) = split a ++ split b.
Proof. unfold split. now apply split_from_space. Qed.

(** Splitting undoes joining on lists of tokens. *)
Lemma split_join (l : list string) :
  Forall is_token l -> split (join " " l) = l.
Proof.
  induction 1 as [|t l Ht Hl IH]; [reflexivity|].
  unfold join in *. simpl.
  destruct l as [|t' l'].
  - now apply split_token.
  - change (t ++ " " ++ String.concat " " (t' :: l'))%string
      with (t ++ String " " (String.concat " " (t' :: l')))%string.
    rewrite split_append_space, IH, split_token by assumption.
    reflexivity.
Qed.

Lemma split_str_mul_boundary (n : nat) (rest : string) :
  split (str_mul "/ " n ++ rest) = repeat "/" n ++ split rest.
Proof.
  induction n as [|n IH]; [reflexivity|].
  cbn [str_mul append repeat].
  etransitivity; [apply (split_append_space "/")|].
  rewrite IH. reflexivity.
Qed.

Lemma drop_last_append_char (a : string) c :
  drop_last (a ++ String c "") = a.
Proof.
  induction a as [|x a IH]; [reflexivity|].
  simpl. rewrite IH. destruct a; reflexivity.
Qed.

(* ================================================================== *)
(** * The encoder *)
(* ================================================================== *)

Lemma hold_steps (symbol : sym) (k : nat) : forall (a : nat) (acc : list sym),
  (0 < a)%nat ->
  fold_left
    (fun encoded_song step =>
       if step =? 0 then encoded_song ++ [symbol]
       else encoded_song ++ [Str "_"])
    (map Z.of_nat (seq a k)) acc
  = acc ++ repeat (Str "_") k.
Proof.
  induction k as [|k IH]; intros a acc Ha; simpl.
  - now rewrite app_nil_r.
  - destruct (Z.eqb_spec (Z.of_nat a) 0) as [E|_]; [lia|].
    rewrite IH by lia. rewrite <- app_assoc. reflexivity.
Qed.

(** The inner loop appends one onset token and then hold tokens. *)
Lemma append_steps_tokens (symbol : sym) (steps : Z) (acc : list sym) :
  append_steps symbol steps acc = acc ++ step_tokens symbol steps.
Proof.
  unfold append_steps, step_tokens, range.
  destruct (Z.to_nat steps) as [|k]; simpl.
  - now rewrite app_nil_r.
  - rewrite hold_steps by lia. rewrite <- app_assoc. reflexivity.
Qed.

Lemma encode_event_tokens (time_step : Q) (acc : list sym) (e : event) :
  ~ time_step == 0 ->
  encode_event time_step acc e = Ok (acc ++ event_tokens time_step e).
Proof.
  intros Ht. unfold encode_event, event_tokens.
  destruct (Qeq_bool time_step 0) eqn:E.
  - apply Qeq_bool_iff in E. contradiction.
  - rewrite append_steps_tokens. destruct e; reflexivity.
Qed.

Lemma encode_events_from (time_step : Q) (song : list event) :
  ~ time_step == 0 -> forall acc,
  fold_left
    (fun acc event => encoded_song <- acc ;; encode_event time_step encoded_song event)
    song (Ok acc)
  = Ok (acc ++ List.concat (map (event_tokens time_step) song)).
Proof.
  intros Ht. induction song as [|e song IH]; intros acc; simpl.
  - now rewrite app_nil_r.
  - rewrite encode_event_tokens by assumption.
    rewrite IH, <- app_assoc. reflexivity.
Qed.

Lemma encode_events_tokens (time_step : Q) (song : list event) :
  ~ time_step == 0 ->
  encode_events song time_step
  = Ok (List.concat (map (event_tokens time_step) song)).
Proof. intros Ht. unfold encode_events. now rewrite encode_events_from. Qed.

Lemma encode_song_tokens (time_step : Q) (song : list event) :
  ~ time_step == 0 ->
  encode_song song time_step = Ok (join " " (song_tokens time_step song)).
Proof.
  intros Ht. unfold encode_song. now rewrite encode_events_tokens.
Qed.

(** On a non-negative number [int] is the floor. *)
Lemma int_of_Q_floor (q : Q) : (0 <= q)%Q -> int_of_Q q = Qfloor q.
Proof.
  destruct q as [n d]. unfold Qle, int_of_Q, Qfloor. simpl. intros H.
  apply Z.quot_div_nonneg; lia.
Qed.

Lemma int_of_Q_exact (q : Q) (k : Z) : q == inject_Z k -> int_of_Q q = k.
Proof.
  destruct q as [n d]. unfold Qeq, int_of_Q. simpl. intros H.
  rewrite Z.mul_1_r in H. subst n. apply Z.quot_mul. discriminate.
Qed.

Lemma Qdiv_nonneg (d t : Q) : (0 <= d -> 0 < t -> 0 <= d / t)%Q.
Proof.
  intros Hd Ht. apply Qle_shift_div_l; [assumption|].
  now rewrite Qmult_0_l.
Qed.

Lemma step_tokens_length (symbol : sym) (steps : Z) :
  List.length (step_tokens symbol steps) = Z.to_nat steps.
Proof.
  unfold step_tokens. destruct (Z.to_nat steps); simpl; [reflexivity|].
  now rewrite repeat_length.
Qed.

Lemma step_tokens_pos (symbol : sym) (steps : Z) :
  1 <= steps ->
  step_tokens symbol steps = symbol :: repeat (Str "_") (Z.to_nat (steps - 1)).
Proof.
  intros H. unfold step_tokens.
  replace (Z.to_nat steps) with (S (Z.to_nat (steps - 1))) by lia.
  reflexivity.
Qed.

(** C3, the claim as worded: a thirty-second note at a time step of a
    sixteenth is encoded as no token at all, where the claim promises its
    onset token. *)
Lemma encode_event_no_onset :
  encode_event (1 # 4) [] (Note 60 (1 # 8)) = Ok []
  /\ encode_event (1 # 4) [] (Note 60 (1 # 8))
     <> Ok (spec_event_tokens (1 # 4) (Note 60 (1 # 8))).
Proof. split; [reflexivity | discriminate]. Qed.

(** C3, amended: at the default time step of 0.25, an event whose
    duration [d] is a quarter length of music21 contributes
    [floor(d / 0.25)] tokens to the encoded song: nothing when [d < 0.25],
    and otherwise its onset token followed by [floor(d / 0.25) - 1] hold
    tokens; the quotient is truncated, not rounded; the encoded song is
    the concatenation of these, in order, joined by spaces.  (At this
    time step and for these durations the floating-point quotient of the
    code has the integer part of the exact quotient.) *)
Theorem encode_song_truncates (time_step : Q) (song : list event) :
  time_step == default_time_step ->
  Forall (fun e => music21_quarter_length (quarterLength e) = true) song ->
  encode_events song time_step
    = Ok (List.concat (map (event_tokens time_step) song))
  /\ encode_song song time_step = Ok (join " " (song_tokens time_step song))
  /\ forall e, In e song ->
       let steps := Qfloor (quarterLength e / time_step) in
       ((quarterLength e < time_step)%Q -> event_tokens time_step e = [])
       /\ ((time_step <= quarterLength e)%Q ->
           1 <= steps
           /\ event_tokens time_step e
              = onset e :: repeat (Str "_") (Z.to_nat (steps - 1))).
Proof.
  intros Hdefault Hsong.
  assert (Ht : (0 < time_step)%Q) by (rewrite Hdefault; reflexivity).
  assert (Hne : ~ time_step == 0).
  { intros E. rewrite E in Ht. discriminate. }
  split; [now apply encode_events_tokens|].
  split; [now apply encode_song_tokens|].
  intros e Hin steps.
  assert (Hd : (0 <= quarterLength e)%Q).
  { rewrite Forall_forall in Hsong. specialize (Hsong e Hin).
    unfold music21_quarter_length in Hsong. unfold Qle. simpl. lia. }
  unfold event_tokens.
  rewrite int_of_Q_floor by now apply Qdiv_nonneg.
  fold steps. split.
  - intros Hlt.
    assert (H0 : 0 <= steps).
    { rewrite <- (Qfloor_Z 0). apply Qfloor_resp_le. now apply Qdiv_nonneg. }
    assert (H1 : steps < 1).
    { rewrite Zlt_Qlt. apply Qle_lt_trans with (quarterLength e / time_step)%Q.
      - apply Qfloor_le.
      - apply Qlt_shift_div_r; [assumption|]. now rewrite Qmult_1_l. }
    replace steps with 0%Z by lia. reflexivity.
  - intros Hle.
    assert (H1 : 1 <= steps).
    { rewrite <- (Qfloor_Z 1). apply Qfloor_resp_le.
      apply Qle_shift_div_l; [assumption|]. now rewrite Qmult_1_l. }
    split; [assumption|]. now apply step_tokens_pos.
Qed.

Lemma encode_song_truncates_witness :
  default_time_step == default_time_step
  /\ Forall (fun e => music21_quarter_length (quarterLength e) = true)
       [Note 60 (3 # 8); Rest (1 # 8); Note 62 1]
  /\ encode_song [Note 60 (3 # 8); Rest (1 # 8); Note 62 1] default_time_step
     = Ok "60 62 _ _ _"
  /\ event_tokens default_time_step (Rest (1 # 8)) = []
  /\ event_tokens default_time_step (Note 60 (3 # 8)) = [Midi 60].
Proof.
  assert (Hsong : Forall (fun e => music21_quarter_length (quarterLength e)
                                   = true)
                    [Note 60 (3 # 8); Rest (1 # 8); Note 62 1])
    by (repeat constructor).
  destruct (encode_song_truncates default_time_step
              [Note 60 (3 # 8); Rest (1 # 8); Note 62 1] eq_refl Hsong)
    as (_ & Hencoded & Hevents).
  split; [reflexivity|]. split; [exact Hsong|].
  split; [exact Hencoded|]. split.
  - apply (Hevents (Rest (1 # 8))); [simpl; auto | reflexivity].
  - apply (proj2 (Hevents (Note 60 (3 # 8)) (or_introl eq_refl))).
    discriminate.
Defined.

(** ** Tokens of an encoded song *)

Lemma uint_no_space (d : Decimal.uint) :
  no_space (NilEmpty.string_of_uint d) = true.
Proof. induction d; simpl; auto. Qed.

Lemma str_of_int_token (z : Z) : is_token (str_of_int z).
Proof.
  unfold str_of_int, is_token.
  destruct (Z.to_int z) as [d|d]; simpl.
  - destruct d; simpl; split; try discriminate; auto using uint_no_space.
  - split; [discriminate|].
    destruct d; simpl; auto using uint_no_space.
Qed.

Lemma onset_token (e : event) : is_token (str (onset e)).
Proof.
  destruct e; simpl; [apply str_of_int_token|].
  split; [discriminate | reflexivity].
Qed.

Lemma song_tokens_are_tokens (time_step : Q) (song : list event) :
  Forall is_token (song_tokens time_step song).
Proof.
  unfold song_tokens. induction song as [|e song IH]; simpl; [constructor|].
  rewrite map_app. apply Forall_app. split; [|assumption].
  unfold event_tokens, step_tokens.
  destruct (Z.to_nat _) as [|k]; simpl; constructor.
  - apply onset_token.
  - induction k as [|k IHk]; simpl; constructor; [|assumption].
    split; [discriminate | reflexivity].
Qed.

(** Splitting an encoded song gives back its tokens. *)
Lemma split_encoded_song (time_step : Q) (song : list event) :
  split (join " " (song_tokens time_step song)) = song_tokens time_step song.
Proof. apply split_join, song_tokens_are_tokens. Qed.

(** ** The duration filter *)

Lemma Q_in_iff (x : Q) (l : list Q) :
  Q_in x l = true <-> exists w, In w l /\ x == w.
Proof.
  unfold Q_in. rewrite existsb_exists.
  split; intros (w & Hw & E); exists w; split; auto; now apply Qeq_bool_iff.
Qed.

Lemma has_acceptable_durations_iff (song : list event) (ad : list Q) :
  has_acceptable_durations song ad = true
  <-> forall e, In e song -> Q_in (quarterLength e) ACCEPTABLE_DURATIONS = true.
Proof.
  induction song as [|e song IH]; cbn [has_acceptable_durations].
  - split; [intros _ e [] | reflexivity].
  - destruct (Q_in (quarterLength e) ACCEPTABLE_DURATIONS) eqn:E;
      cbn [negb].
    + rewrite IH. split.
      * intros H e' [<-|He']; auto.
      * intros H e' He'. apply H. now right.
    + split; [discriminate|].
      intros H. rewrite <- E. apply H. now left.
Qed.

(** A whitelisted duration is a whole number of sixteenths, at least one. *)
Lemma acceptable_duration_steps (d : Q) :
  Q_in d ACCEPTABLE_DURATIONS = true ->
  exists k : Z, 1 <= k /\ d / default_time_step == inject_Z k.
Proof.
  intros H. apply Q_in_iff in H as (w & Hw & E).
  unfold default_time_step. setoid_rewrite E.
  unfold ACCEPTABLE_DURATIONS in Hw. simpl in Hw.
  destruct Hw as [<-|[<-|[<-|[<-|[<-|[<-|[<-|[<-|[]]]]]]]]].
  - exists 1. split; [lia | reflexivity].
  - exists 2. split; [lia | reflexivity].
  - exists 3. split; [lia | reflexivity].
  - exists 4. split; [lia | reflexivity].
  - exists 6. split; [lia | reflexivity].
  - exists 8. split; [lia | reflexivity].
  - exists 12. split; [lia | reflexivity].
  - exists 16. split; [lia | reflexivity].
Qed.

Lemma total_duration_cons (e : event) (song : list event) :
  total_duration (e :: song) = (quarterLength e + total_duration song)%Q.
Proof. reflexivity. Qed.

Lemma accepted_token_count (song : list event) :
  (forall e, In e song -> Q_in (quarterLength e) ACCEPTABLE_DURATIONS = true) ->
  inject_Z (Z.of_nat (List.length (song_tokens default_time_step song)))
  == total_duration song / default_time_step.
Proof.
  unfold song_tokens. induction song as [|e song IH]; intros H.
  - reflexivity.
  - rewrite total_duration_cons. simpl.
    rewrite map_app, length_app, Nat2Z.inj_add, inject_Z_plus.
    rewrite IH by (intros e' He'; apply H; now right).
    destruct (acceptable_duration_steps (quarterLength e)) as (k & Hk & E).
    { apply H. now left. }
    rewrite length_map. unfold event_tokens.
    rewrite step_tokens_length, (int_of_Q_exact _ k E), Z2Nat.id by lia.
    rewrite <- E. unfold Qdiv. ring.
Qed.

(** C10: a song that passes the duration filter is encoded at the default
    time step of a sixteenth without loss: for each of its events the
    number of steps [int(d / 0.25)] equals [d / 0.25] and is at least one,
    the event contributes its onset token and [d / 0.25 - 1] hold tokens,
    and the number of tokens of the encoded song is the total quarter
    length of the song divided by 0.25. *)
Theorem accepted_song_encoding_exact (song : list event) (ad : list Q) :
  has_acceptable_durations song ad = true ->
  (forall e, In e song ->
     let steps := int_of_Q (quarterLength e / default_time_step) in
     inject_Z steps == quarterLength e / default_time_step
     /\ 1 <= steps
     /\ event_tokens default_time_step e
        = onset e :: repeat (Str "_") (Z.to_nat (steps - 1)))
  /\ exists encoded_song,
       encode_song song default_time_step = Ok encoded_song
       /\ split encoded_song = song_tokens default_time_step song
       /\ inject_Z (Z.of_nat (List.length (split encoded_song)))
          == total_duration song / default_time_step.
Proof.
  intros H. rewrite has_acceptable_durations_iff in H. split.
  - intros e He steps.
    destruct (acceptable_duration_steps _ (H e He)) as (k & Hk & E).
    assert (Hs : steps = k) by (apply int_of_Q_exact, E).
    rewrite Hs. split; [now rewrite E|]. split; [assumption|].
    unfold event_tokens. fold steps. rewrite Hs. now apply step_tokens_pos.
  - exists (join " " (song_tokens default_time_step song)).
    split; [now apply encode_song_tokens|].
    rewrite split_encoded_song. split; [reflexivity|].
    now apply accepted_token_count.
Qed.

Lemma accepted_song_encoding_exact_witness :
  has_acceptable_durations [Note 60 1; Rest (1 # 2); Note 62 (3 # 2)]
    ACCEPTABLE_DURATIONS = true
  /\ exists encoded_song,
       encode_song [Note 60 1; Rest (1 # 2); Note 62 (3 # 2)]
         default_time_step = Ok encoded_song
       /\ split encoded_song
          = song_tokens default_time_step
              [Note 60 1; Rest (1 # 2); Note 62 (3 # 2)]
       /\ inject_Z (Z.of_nat (List.length (split encoded_song)))
          == total_duration [Note 60 1; Rest (1 # 2); Note 62 (3 # 2)]
             / default_time_step.
Proof.
  split; [reflexivity|].
  exact (proj2 (accepted_song_encoding_exact
                  [Note 60 1; Rest (1 # 2); Note 62 (3 # 2)]
                  ACCEPTABLE_DURATIONS eq_refl)).
Defined.

(** ** Dictionaries and paths *)

Lemma dict_get_set_same {V : Type} (d : dict V) (k : string) (v : V) :
  dict_get (dict_set d k v) k = Some v.
Proof.
  induction d as [|[k' v'] d IH]; simpl.
  - now rewrite String.eqb_refl.
  - destruct (String.eqb_spec k' k) as [->|Hne]; simpl.
    + now rewrite String.eqb_refl.
    + apply String.eqb_neq in Hne. now rewrite Hne.
Qed.

Lemma dict_get_set_other {V : Type} (d : dict V) (k k0 : string) (v : V) :
  k <> k0 -> dict_get (dict_set d k v) k0 = dict_get d k0.
Proof.
  intros Hne. induction d as [|[k' v'] d IH]; simpl.
  - apply String.eqb_neq in Hne. now rewrite Hne.
  - destruct (String.eqb_spec k' k) as [->|Hk]; simpl.
    + apply String.eqb_neq in Hne. now rewrite Hne.
    + now rewrite IH.
Qed.

Lemma to_int_proper (z : Z) :
  Z.to_int z <> Decimal.Pos Decimal.Nil /\ Z.to_int z <> Decimal.Neg Decimal.Nil.
Proof.
  destruct z as [|p|p]; simpl; split; try discriminate;
    intros [= E]; now apply (DecimalPos.Unsigned.to_uint_nonnil p).
Qed.

Lemma int_of_string_str_of_int (z : Z) :
  NilZero.int_of_string (str_of_int z) = Some (Z.to_int z).
Proof.
  unfold str_of_int. destruct (to_int_proper z). now apply NilZero.isi.
Qed.

Lemma str_of_int_inj (a b : Z) : str_of_int a = str_of_int b -> a = b.
Proof.
  intros E. apply DecimalZ.to_int_inj.
  pose proof (int_of_string_str_of_int a) as Ha.
  rewrite E, int_of_string_str_of_int in Ha. congruence.
Qed.

Lemma song_path_inj (a b : Z) : song_path a = song_path b -> a = b.
Proof. unfold song_path. simpl. intros [= E]. now apply str_of_int_inj. Qed.

Lemma has_acceptable_durations_false_iff (song : list event) (ad : list Q) :
  has_acceptable_durations song ad = false
  <-> exists e, In e song
        /\ forall w, In w ACCEPTABLE_DURATIONS -> ~ quarterLength e == w.
Proof.
  split.
  - induction song as [|e song IH]; cbn [has_acceptable_durations];
      [discriminate|].
    destruct (Q_in (quarterLength e) ACCEPTABLE_DURATIONS) eqn:E; cbn [negb].
    + intros H. destruct (IH H) as (e' & He' & Hw).
      exists e'. split; [now right | assumption].
    + intros _. exists e. split; [now left|].
      intros w Hw Heq.
      assert (Q_in (quarterLength e) ACCEPTABLE_DURATIONS = true)
        by (apply Q_in_iff; eauto).
      congruence.
  - intros (e & He & Hw).
    destruct (has_acceptable_durations song ad) eqn:E; [|reflexivity].
    rewrite has_acceptable_durations_iff in E.
    apply E, Q_in_iff in He as (w & Hin & Heq). now destruct (Hw w Hin).
Qed.

(* ================================================================== *)
(** * The preprocessing pipeline *)
(* ================================================================== *)

Section PreprocessingFacts.

Variable score : Type.
Variable flat_notesAndRests : score -> list event.
Variable transpose : score -> result score.
Variable load_songs_in_kern : string -> result (list score).

Local Abbreviation accepted := (accepted flat_notesAndRests).
Local Abbreviation encoded := (encoded flat_notesAndRests).
Local Abbreviation processed := (processed flat_notesAndRests transpose).

Lemma preprocess_song_accepted (fs : store) (i : Z) (song song' : score) :
  accepted song = true -> transpose song = Ok song' ->
  preprocess_song score flat_notesAndRests transpose fs i song
  = Ok (write fs (song_path i) (Text (encoded song'))).
Proof.
  intros Ha Ht. unfold preprocess_song. fold (accepted song).
  rewrite Ha, Ht. cbn [negb bind].
  rewrite encode_song_tokens by discriminate. reflexivity.
Qed.

Lemma preprocess_song_rejected (fs : store) (i : Z) (song : score) :
  accepted song = false ->
  preprocess_song score flat_notesAndRests transpose fs i song = Ok fs.
Proof.
  intros Ha. unfold preprocess_song. fold (accepted song).
  now rewrite Ha.
Qed.

(** The loop of [preprocess] from song number [a] on. *)
Lemma preprocess_songs_from (songs : list score) :
  (forall song, In song songs -> accepted song = true ->
                exists song', transpose song = Ok song') ->
  forall (a : nat) (fs : store),
  exists fs',
    preprocess_songs score flat_notesAndRests transpose
      (combine (map Z.of_nat (seq a (List.length songs))) songs) fs = Ok fs'
    /\ (forall j, (j < a)%nat ->
          dict_get fs' (song_path (Z.of_nat j))
          = dict_get fs (song_path (Z.of_nat j)))
    /\ (forall k song, nth_error songs k = Some song ->
          processed fs fs' (Z.of_nat (a + k)) song).
Proof.
  induction songs as [|s songs IH]; intros Ht a fs.
  - exists fs. split; [reflexivity|]. split; [reflexivity|].
    intros [|k] song; discriminate.
  - assert (Hstep : exists fs1,
              preprocess_song score flat_notesAndRests transpose fs
                (Z.of_nat a) s = Ok fs1
              /\ processed fs fs1 (Z.of_nat a) s
              /\ forall j, j <> a ->
                   dict_get fs1 (song_path (Z.of_nat j))
                   = dict_get fs (song_path (Z.of_nat j))).
    { unfold processed. destruct (accepted s) eqn:Ha.
      - destruct (Ht s (or_introl eq_refl) Ha) as (s' & Hs').
        exists (write fs (song_path (Z.of_nat a)) (Text (encoded s'))).
        split; [now apply preprocess_song_accepted|]. split.
        + exists s'. split; [assumption|]. apply dict_get_set_same.
        + intros j Hj. apply dict_get_set_other.
          intros E. apply song_path_inj in E. lia.
      - exists fs. split; [now apply preprocess_song_rejected|].
        split; reflexivity. }
    destruct Hstep as (fs1 & Hfs1 & Hs & Hother).
    destruct (IH (fun song H => Ht song (or_intror H)) (S a) fs1)
      as (fs' & Hfs' & Hbelow & Hrest).
    exists fs'. split; [|split].
    + cbn [List.length seq map combine]. unfold preprocess_songs in *.
      cbn [fold_left bind]. rewrite Hfs1. exact Hfs'.
    + intros j Hj. rewrite Hbelow by lia. apply Hother. lia.
    + intros [|k] song Hk.
      * injection Hk as <-. rewrite Nat.add_0_r.
        unfold processed in *. destruct (accepted s).
        -- destruct Hs as (s' & Hs' & Hget). exists s'.
           split; [assumption|]. rewrite Hbelow by lia. assumption.
        -- rewrite Hbelow by lia. assumption.
      * specialize (Hrest k song Hk).
        replace (a + S k)%nat with (S a + k)%nat by lia.
        unfold processed in *. destruct (accepted song); [assumption|].
        rewrite Hrest. apply Hother. lia.
Qed.

(** C4: [has_acceptable_durations] answers [False] exactly when some
    note or rest of the score has a quarter length outside the fixed
    whitelist, and [True] exactly when every one is in it, whatever list
    it is passed; and when music21 transposes every accepted score,
    [preprocess] runs to the end and saves, for each loaded score, the
    encoding of its transposition if the score is accepted, and leaves
    the store as it was at that score's path if it is rejected (a
    rejected score is not even handed to [transpose]). *)
Theorem preprocess_skips_rejected (dataset_path : string)
    (songs : list score) (fs : store) :
  load_songs_in_kern dataset_path = Ok songs ->
  (forall song, In song songs -> accepted song = true ->
                exists song', transpose song = Ok song') ->
  (forall song ad,
     (has_acceptable_durations song ad = false
      <-> exists e, In e song
            /\ forall w, In w ACCEPTABLE_DURATIONS -> ~ quarterLength e == w)
     /\ (has_acceptable_durations song ad = true
         <-> forall e, In e song ->
               exists w, In w ACCEPTABLE_DURATIONS /\ quarterLength e == w))
  /\ exists fs',
       preprocess score flat_notesAndRests transpose load_songs_in_kern
         dataset_path fs = Ok fs'
       /\ forall i song, nth_error songs i = Some song ->
            processed fs fs' (Z.of_nat i) song.
Proof.
  intros Hload Ht. split.
  - intros song ad. split; [apply has_acceptable_durations_false_iff|].
    rewrite has_acceptable_durations_iff.
    split; intros H e He; apply Q_in_iff, H, He.
  - destruct (preprocess_songs_from songs Ht 0 fs) as (fs' & Hfs' & _ & H).
    exists fs'. split; [|exact H].
    unfold preprocess. rewrite Hload. cbn [bind].
    unfold enumerate, range. rewrite Nat2Z.id. exact Hfs'.
Qed.

End PreprocessingFacts.


Lemma preprocess_skips_rejected_witness :
  exists fs',
    preprocess (list event) (fun song => song) sample_transpose
      (fun _ => Ok sample_corpus) "Kern_Dataset/erk" [] = Ok fs'
    /\ dict_get fs' (song_path 0) = Some (Text "62 _ _ _ r _")
    /\ dict_get fs' (song_path 1) = None.
Proof.
  destruct (preprocess_skips_rejected (list event) (fun song => song)
              sample_transpose (fun _ => Ok sample_corpus)
              "Kern_Dataset/erk" sample_corpus [] eq_refl)
    as (_ & fs' & Hrun & H).
  - intros song [<-|[<-|[]]] Ha.
    + eexists. reflexivity.
    + discriminate Ha.
  - exists fs'. split; [exact Hrun|]. split.
    + destruct (H 0%nat _ eq_refl) as (song' & Ht & Hget).
      injection Ht as <-. exact Hget.
    + exact (H 1%nat _ eq_refl).
Defined.

(* ================================================================== *)
(** * The vocabulary map *)
(* ================================================================== *)

(** Assigning to a key the dictionary does not have appends the entry. *)
Lemma dict_set_fresh {V : Type} (d : dict V) (k : string) (v : V) :
  ~ In k (keys d) -> dict_set d k v = d ++ [(k, v)].
Proof.
  induction d as [|[k' v'] d IH]; simpl; intros H; [reflexivity|].
  destruct (String.eqb_spec k' k) as [->|_]; [tauto|].
  rewrite IH by tauto. reflexivity.
Qed.

Lemma dict_get_In {V : Type} (d : dict V) (k : string) (v : V) :
  NoDup (keys d) -> (dict_get d k = Some v <-> In (k, v) d).
Proof.
  induction d as [|[k' v'] d IH]; simpl; intros Hnd.
  - split; [discriminate | tauto].
  - inversion Hnd as [|? ? Hnotin Hnd']; subst.
    destruct (String.eqb_spec k' k) as [->|Hne].
    + split.
      * intros [= ->]. now left.
      * intros [[= ->]|Hin]; [reflexivity|].
        destruct Hnotin. apply (in_map fst) in Hin. exact Hin.
    + rewrite IH by assumption. split; [tauto|].
      intros [[= -> _]|Hin]; [congruence | assumption].
Qed.

(** The entries [create_mapping] adds for the symbols numbered from [a]. *)
Lemma build_mappings_from (vocab : list string) :
  forall (a : nat) (acc : dict Z),
  NoDup (keys acc ++ vocab) ->
  fold_left (fun mappings '(i, symbol) => dict_set mappings symbol i)
    (combine (map Z.of_nat (seq a (List.length vocab))) vocab) acc
  = acc ++ combine vocab (map Z.of_nat (seq a (List.length vocab))).
Proof.
  induction vocab as [|s vocab IH]; intros a acc Hnd; simpl.
  - now rewrite app_nil_r.
  - rewrite dict_set_fresh.
    + rewrite IH.
      * rewrite <- app_assoc. reflexivity.
      * unfold keys in *. rewrite map_app, <- app_assoc. exact Hnd.
    + apply NoDup_remove_2 in Hnd. intros Hin. apply Hnd.
      apply in_or_app. now left.
Qed.

Lemma build_mappings_combine (vocab : list string) :
  NoDup vocab ->
  build_mappings vocab = combine vocab (range (Z.of_nat (List.length vocab))).
Proof.
  intros Hnd. unfold build_mappings, enumerate, range.
  rewrite Nat2Z.id. now rewrite build_mappings_from.
Qed.

Lemma In_combine_numbering {A : Type} (l : list A) (x : A) (z : Z) :
  forall a : nat,
  In (x, z) (combine l (map Z.of_nat (seq a (List.length l))))
  <-> exists i : nat, z = Z.of_nat (a + i) /\ nth_error l i = Some x.
Proof.
  induction l as [|y l IH]; intros a; simpl.
  - split; [tauto|]. intros ([|i] & _ & H); discriminate.
  - rewrite IH. split.
    + intros [[= <- <-]|(i & -> & Hi)].
      * exists 0%nat. split; [f_equal; lia | reflexivity].
      * exists (S i). split; [f_equal; lia | assumption].
    + intros ([|i] & -> & Hi).
      * left. injection Hi as ->. do 2 f_equal. lia.
      * right. exists i. split; [f_equal; lia | assumption].
Qed.

Lemma keys_combine (vocab : list string) (l : list Z) :
  List.length l = List.length vocab -> keys (combine vocab l) = vocab.
Proof.
  revert l. induction vocab as [|s vocab IH]; intros [|z l] H;
    simpl in *; try discriminate; [reflexivity|].
  f_equal. apply IH. lia.
Qed.

Lemma values_combine (vocab : list string) (l : list Z) :
  List.length l = List.length vocab -> values (combine vocab l) = l.
Proof.
  revert l. induction vocab as [|s vocab IH]; intros [|z l] H;
    simpl in *; try discriminate; [reflexivity|].
  f_equal. apply IH. lia.
Qed.

Lemma range_length (n : nat) : List.length (range (Z.of_nat n)) = n.
Proof. unfold range. now rewrite length_map, length_seq, Nat2Z.id. Qed.

(** The vocabulary map numbers the symbols of [vocab] by position. *)
Lemma build_mappings_lookup (vocab : list string) (k : string) (z : Z) :
  NoDup vocab ->
  (dict_get (build_mappings vocab) k = Some z
   <-> 0 <= z /\ nth_error vocab (Z.to_nat z) = Some k).
Proof.
  intros Hnd. rewrite build_mappings_combine by assumption.
  rewrite dict_get_In
    by (rewrite keys_combine; [assumption | apply range_length]).
  unfold range. rewrite Nat2Z.id, In_combine_numbering. split.
  - intros (i & -> & Hi). rewrite Nat.add_0_l, Nat2Z.id. split; [lia|easy].
  - intros [Hz Hk]. exists (Z.to_nat z). split; [lia | assumption].
Qed.

Lemma same_elements_length {A : Type} (l1 l2 : list A) :
  NoDup l1 -> NoDup l2 -> (forall x, In x l1 <-> In x l2) ->
  List.length l1 = List.length l2.
Proof.
  intros H1 H2 H. apply Nat.le_antisymm; apply NoDup_incl_length;
    try assumption; intros x Hx; now apply H.
Qed.

(** ** Looking up a list of symbols *)

Lemma comprehension_subscript (mappings : dict Z) (l : list string) :
  (exists ids, comprehension (fun symbol => subscript mappings symbol) l = Ok ids
               /\ Forall2 (fun symbol id => dict_get mappings symbol = Some id)
                    l ids)
  \/ (exists symbol,
        comprehension (fun symbol => subscript mappings symbol) l
        = Raise (KeyError symbol)
        /\ In symbol l /\ dict_get mappings symbol = None).
Proof.
  induction l as [|k l IH]; simpl.
  - left. exists []. split; [reflexivity | constructor].
  - destruct (dict_get mappings k) as [v|] eqn:E.
    + assert (Hk : subscript mappings k = Ok v)
        by (unfold subscript; now rewrite E).
      rewrite Hk. cbn [bind].
      destruct IH as [(ids & -> & HF)|(s & -> & Hin & Hs)].
      * left. exists (v :: ids). split; [reflexivity | now constructor].
      * right. exists s. split; [reflexivity | tauto].
    + assert (Hk : subscript mappings k = Raise (KeyError k))
        by (unfold subscript; now rewrite E).
      rewrite Hk. right. exists k. split; [reflexivity | tauto].
Qed.

Lemma comprehension_subscript_total (mappings : dict Z) (l : list string) :
  (forall symbol, In symbol l -> dict_get mappings symbol <> None) ->
  exists ids, comprehension (fun symbol => subscript mappings symbol) l = Ok ids
              /\ Forall2 (fun symbol id => dict_get mappings symbol = Some id)
                   l ids.
Proof.
  intros H. destruct (comprehension_subscript mappings l)
    as [?|(s & _ & Hin & Hs)]; [assumption|].
  now destruct (H s Hin).
Qed.

(** A key-lookup failure happens exactly when a symbol is missing. *)
Lemma comprehension_subscript_KeyError (mappings : dict Z) (l : list string) :
  (exists symbol, comprehension (fun symbol => subscript mappings symbol) l
                  = Raise (KeyError symbol))
  <-> exists symbol, In symbol l /\ dict_get mappings symbol = None.
Proof.
  split.
  - intros (s & Hs).
    destruct (comprehension_subscript mappings l)
      as [(ids & E & _)|(s' & _ & Hin & Hnone)]; [congruence | eauto].
  - intros (s & Hin & Hnone).
    destruct (comprehension_subscript mappings l)
      as [(ids & _ & HF)|(s' & E & _)]; [|eauto].
    exfalso. clear -HF Hin Hnone.
    induction HF as [|k id l ids Hk _ IH]; [easy|].
    destruct Hin as [->|Hin]; [congruence | auto].
Qed.

Lemma build_mappings_keys (vocab : list string) :
  NoDup vocab -> keys (build_mappings vocab) = vocab.
Proof.
  intros Hnd. rewrite build_mappings_combine by assumption.
  apply keys_combine, range_length.
Qed.

(** Every symbol of [vocab], and no other string, has an id. *)
Lemma build_mappings_defined (vocab : list string) (k : string) :
  NoDup vocab ->
  ((exists z, dict_get (build_mappings vocab) k = Some z) <-> In k vocab).
Proof.
  intros Hnd. split.
  - intros (z & Hz). apply build_mappings_lookup in Hz as [_ Hz];
      [|assumption].
    eapply nth_error_In, Hz.
  - intros Hin. apply In_nth_error in Hin as (i & Hi).
    exists (Z.of_nat i). apply build_mappings_lookup; [assumption|].
    rewrite Nat2Z.id. split; [lia | assumption].
Qed.

Section VocabularyFacts.

(** [list(set(l))] lists the distinct elements of [l] once each, in an
    order that is not specified. *)
Variable list_set : list string -> list string.
Hypothesis list_set_NoDup : forall l, NoDup (list_set l).
Hypothesis list_set_In : forall l x, In x (list_set l) <-> In x l.

Lemma vocab_size (songs : string) :
  List.length (list_set (split songs))
  = List.length (nodup string_dec (split songs)).
Proof.
  apply same_elements_length; [apply list_set_NoDup | apply NoDup_nodup|].
  intros x. rewrite list_set_In, nodup_In. reflexivity.
Qed.

(** C5: the map [create_mapping] persists has as keys exactly the
    whitespace-delimited tokens of the corpus, sends distinct tokens to
    distinct integers, and its values are exactly the integers of
    [0, vocabulary size), the vocabulary size being the number of
    distinct tokens; in the order of insertion the values are 0, 1, 2
    and so on. *)
Theorem create_mapping_bijection (songs mapping_path : string) (fs : store) :
  exists mappings,
    dict_get (create_mapping list_set songs mapping_path fs) mapping_path
    = Some (Json mappings)
    /\ NoDup (keys mappings)
    /\ (forall k, In k (keys mappings) <-> In k (split songs))
    /\ (forall k, (exists z, dict_get mappings k = Some z)
                  <-> In k (split songs))
    /\ (forall k1 k2 z, dict_get mappings k1 = Some z ->
                        dict_get mappings k2 = Some z -> k1 = k2)
    /\ (forall z, (exists k, dict_get mappings k = Some z)
                  <-> 0 <= z
                      < Z.of_nat (List.length (nodup string_dec (split songs))))
    /\ List.length mappings
       = List.length (nodup string_dec (split songs))
    /\ values mappings = range (Z.of_nat (List.length mappings)).
Proof.
  set (vocab := list_set (split songs)).
  assert (Hnd : NoDup vocab) by apply list_set_NoDup.
  assert (Hkeys : keys (build_mappings vocab) = vocab)
    by now apply build_mappings_keys.
  exists (build_mappings vocab).
  split; [apply dict_get_set_same|].
  split; [now rewrite Hkeys|].
  split; [intros k; rewrite Hkeys; apply list_set_In|].
  split; [|split; [|split; [|split]]].
  - intros k. rewrite <- (list_set_In (split songs) k).
    now apply build_mappings_defined.
  - intros k1 k2 z H1 H2.
    apply build_mappings_lookup in H1 as [_ H1]; [|assumption].
    apply build_mappings_lookup in H2 as [_ H2]; [|assumption].
    congruence.
  - intros z. rewrite <- vocab_size. fold vocab. split.
    + intros (k & Hk). apply build_mappings_lookup in Hk as [Hz Hk];
        [|assumption].
      assert (Z.to_nat z < List.length vocab)%nat
        by (apply nth_error_Some; congruence).
      lia.
    + intros [Hz Hlt].
      destruct (nth_error vocab (Z.to_nat z)) as [k|] eqn:E.
      * exists k. now apply build_mappings_lookup.
      * apply nth_error_None in E. lia.
  - rewrite <- vocab_size. fold vocab.
    rewrite <- Hkeys at 2. unfold keys. now rewrite length_map.
  - rewrite build_mappings_combine by assumption.
    rewrite values_combine by apply range_length.
    now rewrite length_combine, range_length, Nat.min_id.
Qed.

(** C6: every token of a corpus is a key of the map [create_mapping]
    persists for that corpus, so [convert_songs_to_int] on the same
    corpus returns, and its result holds the id of each token, one per
    token and in order. *)
Theorem corpus_tokens_are_mapped (songs : string) (fs : store) :
  exists mappings ids,
    json_load (create_mapping list_set songs MAPPING_PATH fs) MAPPING_PATH
    = Ok mappings
    /\ (forall token, In token (split songs) -> In token (keys mappings))
    /\ convert_songs_to_int songs
         (create_mapping list_set songs MAPPING_PATH fs) = Ok ids
    /\ Forall2 (fun token id => dict_get mappings token = Some id)
         (split songs) ids.
Proof.
  set (mappings := build_mappings (list_set (split songs))).
  assert (Hload : json_load (create_mapping list_set songs MAPPING_PATH fs)
                    MAPPING_PATH = Ok mappings).
  { unfold json_load, create_mapping, write.
    now rewrite dict_get_set_same. }
  destruct (comprehension_subscript_total mappings (split songs))
    as (ids & Hids & HF).
  { intros token Hin. apply list_set_In in Hin.
    apply build_mappings_defined in Hin as (z & Hz);
      [|apply list_set_NoDup].
    unfold mappings. congruence. }
  exists mappings, ids. split; [assumption|]. split.
  - intros token Hin. unfold mappings.
    rewrite build_mappings_keys by apply list_set_NoDup.
    now apply list_set_In.
  - split; [|assumption].
    unfold convert_songs_to_int. rewrite Hload. exact Hids.
Qed.

End VocabularyFacts.

Lemma create_mapping_bijection_witness :
  exists mappings,
    dict_get (create_mapping (nodup string_dec) "60 _ _ r 60 / /"
                MAPPING_PATH []) MAPPING_PATH = Some (Json mappings)
    /\ NoDup (keys mappings)
    /\ forall k, In k (keys mappings) <-> In k (split "60 _ _ r 60 / /").
Proof.
  destruct (create_mapping_bijection (nodup string_dec)
              (NoDup_nodup string_dec) (nodup_In string_dec)
              "60 _ _ r 60 / /" MAPPING_PATH [])
    as (mappings & Hfile & Hnd & Hkeys & _).
  exists mappings. auto.
Defined.

Lemma corpus_tokens_are_mapped_witness :
  exists ids,
    convert_songs_to_int "60 _ _ r 60 / /"
      (create_mapping (nodup string_dec) "60 _ _ r 60 / /" MAPPING_PATH [])
    = Ok ids
    /\ List.length ids = 7%nat.
Proof.
  destruct (corpus_tokens_are_mapped (nodup string_dec)
              (NoDup_nodup string_dec) (nodup_In string_dec)
              "60 _ _ r 60 / /" [])
    as (mappings & ids & _ & _ & Hids & HF).
  exists ids. split; [exact Hids|].
  apply Forall2_length in HF. rewrite <- HF. reflexivity.
Defined.

(* ================================================================== *)
(** * The corpus merger *)
(* ================================================================== *)


Lemma ends_with_space_append (a b : string) :
  ends_with_space b -> ends_with_space (a ++ b).
Proof.
  intros (y & ->). exists (a ++ y)%string. now rewrite str_append_assoc.
Qed.

Lemma split_drop_last (s : string) :
  s = "" \/ ends_with_space s -> split (drop_last s) = split s.
Proof.
  intros [->|(y & ->)]; [reflexivity|].
  rewrite drop_last_append_char, split_append_space.
  now rewrite app_nil_r.
Qed.

Lemma str_mul_boundary_spaced (n : nat) :
  str_mul "/ " n = spaced (repeat "/" n).
Proof. induction n as [|n IH]; simpl; congruence. Qed.

Lemma spaced_app (l1 l2 : list string) :
  spaced (l1 ++ l2) = (spaced l1 ++ spaced l2)%string.
Proof.
  induction l1 as [|t l1 IH]; simpl; [reflexivity|].
  rewrite IH, str_append_assoc. reflexivity.
Qed.

Lemma spaced_join (l : list string) :
  l <> [] -> spaced l = (join " " l ++ " ")%string.
Proof.
  induction l as [|t l IH]; [congruence|]. intros _.
  destruct l as [|t' l'].
  - reflexivity.
  - change (spaced (t :: t' :: l'))
      with (t ++ " " ++ spaced (t' :: l'))%string.
    rewrite IH by discriminate.
    change (join " " (t :: t' :: l'))
      with (t ++ " " ++ join " " (t' :: l'))%string.
    now rewrite !str_append_assoc.
Qed.

Lemma spaced_ends_with_space (l : list string) :
  l <> [] -> ends_with_space (spaced l).
Proof. intros H. exists (join " " l). now apply spaced_join. Qed.

Lemma drop_last_spaced (l : list string) : drop_last (spaced l) = join " " l.
Proof.
  destruct l as [|t l]; [reflexivity|].
  rewrite spaced_join by discriminate. apply drop_last_append_char.
Qed.

Lemma merged_ends_with_space (delimiter : string) (contents : list string) :
  delimiter = "" \/ ends_with_space delimiter ->
  contents <> [] -> ends_with_space (merged delimiter contents).
Proof.
  intros Hd. induction contents as [|song rest IH]; [congruence|].
  intros _. cbn [merged fold_right]. fold (merged delimiter rest).
  apply ends_with_space_append.
  destruct rest as [|song' rest'].
  - cbn [merged fold_right]. rewrite str_append_nil_r.
    destruct Hd as [->|Hd]; [now exists ""|].
    now apply (ends_with_space_append " ").
  - apply (ends_with_space_append " "), ends_with_space_append, IH.
    discriminate.
Qed.

Lemma str_mul_boundary_ends (n : nat) :
  str_mul "/ " n = "" \/ ends_with_space (str_mul "/ " n).
Proof.
  destruct n as [|n]; [now left | right].
  rewrite str_mul_boundary_spaced. now apply spaced_ends_with_space.
Qed.

Lemma split_merged (n : nat) (contents : list string) :
  split (merged (str_mul "/ " n) contents)
  = merged_tokens n (map split contents).
Proof.
  unfold merged_tokens. induction contents as [|song rest IH];
    [reflexivity|].
  simpl. etransitivity; [apply split_append_space|].
  rewrite split_str_mul_boundary, IH, <- app_assoc. reflexivity.
Qed.

Lemma merged_spaced (n : nat) (songs : list (list string)) :
  Forall (fun tokens => tokens <> []) songs ->
  merged (str_mul "/ " n) (map (join " ") songs)
  = spaced (merged_tokens n songs).
Proof.
  unfold merged_tokens. induction 1 as [|tokens songs Hne _ IH];
    [reflexivity|].
  simpl. rewrite IH, !spaced_app, str_mul_boundary_spaced.
  rewrite (spaced_join tokens Hne), !str_append_assoc. reflexivity.
Qed.

Section MergerFacts.

Variable os_walk : store -> string -> list string.

Lemma merge_loop (fs : store) (delimiter : string) (paths : list string) :
  forall (contents : list string) (acc : string),
  comprehension (load fs) paths = Ok contents ->
  fold_left
    (fun acc file_path =>
       songs <- acc ;;
       song <- load fs file_path ;;
       Ok (songs ++ song ++ " " ++ delimiter)%string)
    paths (Ok acc)
  = Ok (acc ++ merged delimiter contents)%string.
Proof.
  induction paths as [|path paths IH]; simpl; intros contents acc H.
  - injection H as <-. simpl. now rewrite str_append_nil_r.
  - destruct (load fs path) as [song|e]; [|discriminate].
    cbn [bind] in *.
    destruct (comprehension (load fs) paths) as [rest|e]; [|discriminate].
    injection H as <-. rewrite (IH rest) by reflexivity.
    simpl. now rewrite !str_append_assoc.
Qed.

(** C9: when the files found under [dataset_path] can be read,
    [create_single_file_dataset] returns the string it writes to
    [dataset_file_path]; that string is the concatenation of each song
    followed by a space and [sequence_length] copies of ["/ "], less its
    last character; its tokens are each song's tokens followed by
    [sequence_length] boundary tokens, in the order of the files; and
    when each file holds a non-empty list of tokens joined by single
    spaces, the string is exactly these tokens joined by single spaces,
    with no trailing space. *)
Theorem create_single_file_dataset_merges
    (dataset_path dataset_file_path : string) (sequence_length : Z)
    (fs : store) (contents : list string) :
  comprehension (load fs) (os_walk fs dataset_path) = Ok contents ->
  exists songs,
    create_single_file_dataset os_walk dataset_path dataset_file_path
      sequence_length fs
    = Ok (write fs dataset_file_path (Text songs), songs)
    /\ songs = drop_last (merged (str_mul "/ " (Z.to_nat sequence_length))
                            contents)
    /\ split songs
       = merged_tokens (Z.to_nat sequence_length) (map split contents)
    /\ forall token_lists,
         contents = map (join " ") token_lists ->
         Forall (fun tokens => tokens <> []) token_lists ->
         songs = join " " (merged_tokens (Z.to_nat sequence_length)
                             token_lists).
Proof.
  intros Hload. set (n := Z.to_nat sequence_length).
  exists (drop_last (merged (str_mul "/ " n) contents)).
  split; [|split; [reflexivity|split]].
  - unfold create_single_file_dataset. fold n.
    rewrite (merge_loop fs _ _ contents "" Hload). reflexivity.
  - rewrite split_drop_last; [apply split_merged|].
    destruct contents as [|song rest]; [now left | right].
    apply merged_ends_with_space; [apply str_mul_boundary_ends|].
    discriminate.
  - intros token_lists -> Hne.
    rewrite merged_spaced by assumption. apply drop_last_spaced.
Qed.

End MergerFacts.

Lemma create_single_file_dataset_merges_witness :
  exists songs,
    create_single_file_dataset (fun fs _ => keys fs) SAVE_DIR
      SINGLE_FILE_DATASET 2
      [("Dataset/0", Text "60 _ r"); ("Dataset/1", Text "62 _")]
    = Ok (write [("Dataset/0", Text "60 _ r"); ("Dataset/1", Text "62 _")]
            SINGLE_FILE_DATASET (Text songs), songs)
    /\ songs = "60 _ r / / 62 _ / /".
Proof.
  destruct (create_single_file_dataset_merges (fun fs _ => keys fs)
              SAVE_DIR SINGLE_FILE_DATASET 2
              [("Dataset/0", Text "60 _ r"); ("Dataset/1", Text "62 _")]
              ["60 _ r"; "62 _"] eq_refl)
    as (songs & Hrun & Hsongs & _).
  exists songs. split; [exact Hrun|]. rewrite Hsongs. reflexivity.
Defined.

(* ================================================================== *)
(** * The generator *)
(* ================================================================== *)


Lemma key_of_value_not_KeyError (mappings : dict Z) (z : Z) (k : string) :
  key_of_value mappings z <> Raise (KeyError k).
Proof.
  unfold key_of_value.
  destruct (filter _ mappings) as [|[k' v'] l]; discriminate.
Qed.

Lemma boundary_only_last_cons (mappings : dict Z) (z : Z) (symbol : string)
    (samples : list Z) :
  key_of_value mappings z = Ok symbol -> symbol <> "/" ->
  boundary_only_last mappings samples ->
  boundary_only_last mappings (z :: samples).
Proof.
  intros Hz Hs H [|y pre] x post E Hpost; simpl in E.
  - injection E as <- _. eauto.
  - injection E as _ E. eapply H; eauto.
Qed.

Lemma boundary_only_last_short (mappings : dict Z) (samples : list Z) :
  (List.length samples <= 1)%nat -> boundary_only_last mappings samples.
Proof.
  intros Hlen pre z post E Hpost. subst samples.
  rewrite length_app in Hlen. simpl in Hlen.
  destruct post; [congruence | simpl in Hlen; lia].
Qed.

Section GeneratorFacts.

Variable probabilities : Type.
Variable model_predict : list Z -> Z -> result probabilities.
Variable _sample_with_temperature : probabilities -> Q -> Z -> result Z.
Variable _mappings : dict Z.

Local Abbreviation loop :=
  (generate_loop probabilities model_predict _sample_with_temperature
     _mappings).

(** The loop draws at most one sample per remaining index, stops at the
    first sample that decodes to the boundary marker, and appends the
    other decoded samples to the melody. *)
Lemma generate_loop_run (max_sequence_length : Z) (temperature : Q)
    (steps : list Z) :
  forall (seed : list Z) (melody : list string) (trace : list Z),
  exists samples,
    sampled (loop max_sequence_length temperature steps seed melody trace)
    = trace ++ samples
    /\ (List.length samples <= List.length steps)%nat
    /\ boundary_only_last _mappings samples
    /\ forall melody',
         outcome (loop max_sequence_length temperature steps seed melody
                    trace) = Ok melody' ->
         exists appended,
           melody' = melody ++ appended
           /\ (List.length appended <= List.length samples)%nat
           /\ returned _mappings (List.length steps) samples appended.
Proof.
  induction steps as [|i steps IH]; intros seed melody trace;
    cbn [generate_loop].
  - exists []. cbn [sampled outcome]. rewrite app_nil_r.
    split; [reflexivity|]. split; [reflexivity|].
    split; [apply boundary_only_last_short; simpl; lia|].
    intros melody' [= <-]. exists []. rewrite app_nil_r.
    split; [reflexivity|]. split; [reflexivity|].
    split; [easy | left; easy].
  - destruct (model_predict _ _) as [p|e].
    2:{ exists []. cbn [sampled outcome]. rewrite app_nil_r.
        split; [reflexivity|]. split; [simpl; lia|].
        split; [apply boundary_only_last_short; simpl; lia | discriminate]. }
    destruct (_sample_with_temperature p temperature i) as [z|e].
    2:{ exists []. cbn [sampled outcome]. rewrite app_nil_r.
        split; [reflexivity|]. split; [simpl; lia|].
        split; [apply boundary_only_last_short; simpl; lia | discriminate]. }
    destruct (key_of_value _mappings z) as [symbol|e] eqn:Hz.
    2:{ exists [z]. cbn [sampled outcome].
        split; [reflexivity|]. split; [simpl; lia|].
        split; [apply boundary_only_last_short; simpl; lia | discriminate]. }
    destruct (String.eqb_spec symbol "/") as [->|Hne].
    + exists [z]. cbn [sampled outcome].
      split; [reflexivity|]. split; [simpl; lia|].
      split; [apply boundary_only_last_short; simpl; lia|].
      intros melody' [= <-]. exists []. rewrite app_nil_r.
      split; [reflexivity|]. split; [simpl; lia|].
      split; [easy|]. right. simpl. now rewrite Hz.
    + destruct (IH (slice_from (- max_sequence_length) seed ++ [z])
                  (melody ++ [symbol]) (trace ++ [z]))
        as (samples & Hs & Hlen & Hlast & Hret).
      exists (z :: samples). rewrite Hs, <- app_assoc.
      split; [reflexivity|]. split; [simpl; lia|].
      split; [now apply (boundary_only_last_cons _ z symbol)|].
      intros melody' Hm. destruct (Hret melody' Hm)
        as (appended & -> & Hlen' & Hnot & Hcase).
      exists (symbol :: appended). rewrite <- app_assoc.
      split; [reflexivity|]. split; [simpl; lia|]. split.
      * intros [E|Hin]; [congruence | contradiction].
      * simpl. rewrite Hz.
        destruct Hcase as [[Hfull Hmap]|Hmap]; [left | right].
        -- split; [lia | now rewrite Hmap].
        -- now rewrite Hmap.
Qed.

(** C2: [generate_melody] draws at most [num_steps] samples; no sample
    is drawn after one that decodes to the boundary marker; and the
    melody it returns is the seed followed by the decoded samples, at
    most [num_steps] of them and none of them the boundary marker:
    either all [num_steps] samples, or the samples before the one that
    decoded to the boundary marker. *)
Theorem generate_melody_stops (seed : string) (num_steps : Z)
    (max_sequence_length : Z) (temperature : Q) :
  let r := generate_melody probabilities model_predict
             _sample_with_temperature _mappings seed num_steps
             max_sequence_length temperature in
  (List.length (sampled r) <= Z.to_nat num_steps)%nat
  /\ boundary_only_last _mappings (sampled r)
  /\ forall melody, outcome r = Ok melody ->
       exists appended,
         melody = split seed ++ appended
         /\ (List.length appended <= Z.to_nat num_steps)%nat
         /\ returned _mappings (Z.to_nat num_steps) (sampled r) appended.
Proof.
  unfold generate_melody.
  destruct (comprehension _ (_start_symbols ++ split seed)) as [ids|e].
  - destruct (generate_loop_run max_sequence_length temperature
                (range num_steps) ids (split seed) [])
      as (samples & Hs & Hlen & Hlast & Hret).
    cbn zeta. rewrite Hs. cbn [app].
    assert (Hrange : List.length (range num_steps) = Z.to_nat num_steps)
      by (unfold range; now rewrite length_map, length_seq).
    rewrite Hrange in *.
    split; [assumption|]. split; [assumption|].
    intros melody Hm. destruct (Hret melody Hm)
      as (appended & -> & Hlen' & Hcase).
    exists appended. split; [reflexivity|].
    split; [eapply Nat.le_trans; eassumption | assumption].
  - cbn [sampled outcome]. split; [apply Nat.le_0_l|].
    split; [apply boundary_only_last_short; simpl; lia | discriminate].
Qed.

(** The run returns a melody when every seed token is mapped, the
    external calls succeed and every sample is the id of some symbol. *)
Lemma generate_loop_returns (max_sequence_length : Z) (temperature : Q)
    (steps : list Z) :
  (forall seed num_classes, exists p, model_predict seed num_classes = Ok p) ->
  (forall p temperature i, exists z symbol,
      _sample_with_temperature p temperature i = Ok z
      /\ key_of_value _mappings z = Ok symbol) ->
  forall (seed : list Z) (melody : list string) (trace : list Z),
  exists melody',
    outcome (loop max_sequence_length temperature steps seed melody trace)
    = Ok melody'.
Proof.
  intros Hp Hs. induction steps as [|i steps IH]; intros seed melody trace;
    cbn [generate_loop].
  - now exists melody.
  - destruct (Hp (slice_from (- max_sequence_length) seed)
                (Z.of_nat (List.length _mappings))) as (p & ->).
    destruct (Hs p temperature i) as (z & symbol & -> & ->).
    destruct (symbol =? "/")%string; [now exists melody | apply IH].
Qed.

Lemma generate_melody_returns (seed : string) (num_steps : Z)
    (max_sequence_length : Z) (temperature : Q) :
  (forall token, In token (_start_symbols ++ split seed) ->
                 dict_get _mappings token <> None) ->
  (forall seed num_classes, exists p, model_predict seed num_classes = Ok p) ->
  (forall p temperature i, exists z symbol,
      _sample_with_temperature p temperature i = Ok z
      /\ key_of_value _mappings z = Ok symbol) ->
  exists melody,
    outcome (generate_melody probabilities model_predict
               _sample_with_temperature _mappings seed num_steps
               max_sequence_length temperature) = Ok melody.
Proof.
  intros Hseed Hp Hs. unfold generate_melody.
  destruct (comprehension_subscript_total _ _ Hseed) as (ids & -> & _).
  now apply generate_loop_returns.
Qed.

End GeneratorFacts.

(** A run on a three-symbol vocabulary with the samples 1, 2, 2, 0
    scripted: the fourth sample is the boundary marker and ends the run
    after four of the ten steps. *)
Example generate_melody_run :
  generate_melody unit (fun _ _ => Ok tt)
    (fun _ _ i => Ok (nth (Z.to_nat i) [1; 2; 2; 0; 1] 1))
    [("/", 0); ("60", 1); ("_", 2)] "60 _" 10 SEQUENCE_LENGTH (3 # 10)
  = {| outcome := Ok ["60"; "_"; "60"; "_"; "_"]; sampled := [1; 2; 2; 0] |}.
Proof. reflexivity. Qed.

Lemma generate_melody_stops_witness :
  exists appended,
    ["60"; "_"; "60"; "_"; "_"] = split "60 _" ++ appended
    /\ (List.length appended <= Z.to_nat 10)%nat
    /\ returned [("/", 0); ("60", 1); ("_", 2)] (Z.to_nat 10) [1; 2; 2; 0]
         appended.
Proof.
  exact (proj2 (proj2 (generate_melody_stops unit (fun _ _ => Ok tt)
                         (fun _ _ i => Ok (nth (Z.to_nat i) [1; 2; 2; 0; 1] 1))
                         [("/", 0); ("60", 1); ("_", 2)] "60 _" 10
                         SEQUENCE_LENGTH (3 # 10)))
           ["60"; "_"; "60"; "_"; "_"] eq_refl).
Defined.

(* ================================================================== *)
(** * Lookup failures *)
(* ================================================================== *)

Section LookupFailures.

Variable probabilities : Type.
Variable model_predict : list Z -> Z -> result probabilities.
Variable _sample_with_temperature : probabilities -> Q -> Z -> result Z.
Variable _mappings : dict Z.
Variable tensor : Type.
Variable to_categorical : list (list Z) -> Z -> result tensor.

(** Whatever Keras and NumPy raise, it is not a key-lookup failure. *)
Hypothesis model_predict_no_KeyError :
  forall seed num_classes k, model_predict seed num_classes <> Raise (KeyError k).
Hypothesis sample_no_KeyError :
  forall p temperature i k,
    _sample_with_temperature p temperature i <> Raise (KeyError k).

Lemma generate_loop_no_KeyError (max_sequence_length : Z) (temperature : Q)
    (steps : list Z) :
  forall (seed : list Z) (melody : list string) (trace : list Z) k,
  outcome (generate_loop probabilities model_predict
             _sample_with_temperature _mappings max_sequence_length
             temperature steps seed melody trace)
  <> Raise (KeyError k).
Proof.
  induction steps as [|i steps IH]; intros seed melody trace k;
    cbn [generate_loop]; [discriminate|].
  destruct (model_predict _ _) as [p|e] eqn:Hp.
  2:{ intros E. cbn in E. injection E as ->.
      now apply model_predict_no_KeyError in Hp. }
  destruct (_sample_with_temperature p temperature i) as [z|e] eqn:Hz.
  2:{ intros E. cbn in E. injection E as ->.
      now apply sample_no_KeyError in Hz. }
  destruct (key_of_value _mappings z) as [symbol|e] eqn:Hk.
  2:{ intros E. cbn in E. injection E as ->.
      now apply key_of_value_not_KeyError in Hk. }
  destruct (symbol =? "/")%string; [discriminate | apply IH].
Qed.

(** C8: [generate_melody] raises a key-lookup failure exactly when a
    token of the seed, start symbols included, is not a key of the
    map, and [convert_songs_to_int] exactly when a token of the corpus
    is not; neither caller handles the failure: [predict] and
    [generate_training_sequences] end with the same exception. *)
Theorem unmapped_token_raises :
  (forall seed num_steps max_sequence_length temperature,
     (exists k,
        outcome (generate_melody probabilities model_predict
                   _sample_with_temperature _mappings seed num_steps
                   max_sequence_length temperature) = Raise (KeyError k))
     <-> exists token, In token (_start_symbols ++ split seed)
                       /\ dict_get _mappings token = None)
  /\ (forall seed e,
        outcome (generate_melody probabilities model_predict
                   _sample_with_temperature _mappings seed 500
                   SEQUENCE_LENGTH (3 # 10)) = Raise e ->
        predict probabilities model_predict _sample_with_temperature
          _mappings seed = Raise e)
  /\ (forall songs fs mappings,
        json_load fs MAPPING_PATH = Ok mappings ->
        (exists k, convert_songs_to_int songs fs = Raise (KeyError k))
        <-> exists token, In token (split songs)
                          /\ dict_get mappings token = None)
  /\ (forall sequence_length fs songs e,
        load fs SINGLE_FILE_DATASET = Ok songs ->
        convert_songs_to_int songs fs = Raise e ->
        generate_training_sequences tensor to_categorical sequence_length fs
        = Raise e).
Proof.
  split; [|split; [|split]].
  - intros seed num_steps max_sequence_length temperature.
    rewrite <- comprehension_subscript_KeyError.
    unfold generate_melody.
    destruct (comprehension _ (_start_symbols ++ split seed)) as [ids|e].
    + split; intros (k & Hk); [|discriminate].
      now apply generate_loop_no_KeyError in Hk.
    + split; intros (k & Hk); exists k; cbn in *; congruence.
  - intros seed e H. unfold predict. now rewrite H.
  - intros songs fs mappings Hload.
    rewrite <- comprehension_subscript_KeyError.
    unfold convert_songs_to_int. rewrite Hload. reflexivity.
  - intros sequence_length fs songs e Hload H.
    unfold generate_training_sequences. rewrite Hload. cbn [bind].
    now rewrite H.
Qed.

End LookupFailures.

Lemma unmapped_token_raises_witness :
  exists k,
    outcome (generate_melody unit (fun _ _ => Ok tt) (fun _ _ _ => Ok 0)
               [("/", 0); ("_", 1)] "60 _" 5 SEQUENCE_LENGTH (3 # 10))
    = Raise (KeyError k).
Proof.
  apply (proj1 (unmapped_token_raises unit (fun _ _ => Ok tt)
                  (fun _ _ _ => Ok 0) [("/", 0); ("_", 1)]
                  unit (fun _ _ => Ok tt)
                  ltac:(discriminate) ltac:(discriminate))).
  exists "60". split; [|reflexivity].
  apply in_or_app. right. now left.
Defined.

(* ================================================================== *)
(** * Encoding, then rendering *)
(* ================================================================== *)

(** ** [int] undoes [str] *)

Lemma no_space_forallb (s : string) :
  no_space s = forallb (fun c => negb (isspace c)) (list_ascii_of_string s).
Proof. induction s as [|c s IH]; simpl; congruence. Qed.

Lemma no_space_of_list (l : list ascii) :
  no_space (string_of_list_ascii l) = forallb (fun c => negb (isspace c)) l.
Proof. now rewrite no_space_forallb, list_ascii_of_string_of_list_ascii. Qed.

Lemma no_space_reverse (s : string) : no_space (reverse s) = no_space s.
Proof.
  unfold reverse. rewrite no_space_of_list, no_space_forallb.
  apply eq_true_iff_eq. rewrite !forallb_forall.
  split; intros H c Hc; apply H;
    [apply -> in_rev; assumption | apply <- in_rev; assumption].
Qed.

Lemma reverse_involutive (s : string) : reverse (reverse s) = s.
Proof.
  unfold reverse.
  now rewrite list_ascii_of_string_of_list_ascii, rev_involutive,
    string_of_list_ascii_of_string.
Qed.

Lemma int_isspace_isspace (c : ascii) :
  isspace c = false -> int_isspace c = false.
Proof.
  destruct c as [[|] [|] [|] [|] [|] [|] [|] [|]]; vm_compute; congruence.
Qed.

Lemma lstrip_no_space (s : string) : no_space s = true -> lstrip s = s.
Proof.
  destruct s as [|c s]; [reflexivity|]. simpl. intros H.
  apply andb_true_iff in H as [H _]. apply negb_true_iff in H.
  now rewrite (int_isspace_isspace c H).
Qed.

Lemma strip_no_space (s : string) : no_space s = true -> strip s = s.
Proof.
  intros H. unfold strip. rewrite (lstrip_no_space s H).
  rewrite lstrip_no_space by now rewrite no_space_reverse.
  apply reverse_involutive.
Qed.

Lemma uint_all_digits (d : Decimal.uint) :
  all_digits (NilEmpty.string_of_uint d) = true.
Proof. induction d; simpl; auto. Qed.

Lemma nilzero_uint_digits (d : Decimal.uint) :
  all_digits (NilZero.string_of_uint d) = true
  /\ NilZero.string_of_uint d <> "".
Proof.
  destruct d; simpl; split; try discriminate; auto using uint_all_digits.
Qed.

Lemma digit_is_no_sign (c : ascii) :
  isdigit c = true ->
  (c =? "-")%char = false /\ (c =? "+")%char = false
  /\ (c =? "_")%char = false.
Proof.
  intros H. repeat split;
    match goal with
    | |- (c =? ?x)%char = false =>
        destruct (Ascii.eqb_spec c x) as [->|]; [discriminate H | reflexivity]
    end.
Qed.

Lemma all_digits_grouped (s : string) :
  all_digits s = true -> grouped_digits true s = true.
Proof.
  induction s as [|c s IH]; simpl; [reflexivity|]. intros H.
  apply andb_true_iff in H as [Hc Hs]. rewrite Hc. auto.
Qed.

Lemma all_digits_no_underscore (s : string) :
  all_digits s = true -> remove_underscores s = s.
Proof.
  induction s as [|c s IH]; simpl; [reflexivity|]. intros H.
  apply andb_true_iff in H as [Hc Hs].
  destruct (digit_is_no_sign c Hc) as (_ & _ & ->). now rewrite IH.
Qed.

(** A run of digits is a numeral as [int] accepts it, unchanged by the
    removal of a sign or of underscores. *)
Lemma all_digits_numeral (s : string) :
  all_digits s = true -> s <> "" ->
  unsigned_part s = s /\ drop_plus s = s
  /\ grouped_digits false s = true /\ remove_underscores s = s.
Proof.
  intros H Hne. split; [|split; [|split]];
    [| | |now apply all_digits_no_underscore];
    destruct s as [|c s]; try congruence; simpl in *;
    apply andb_true_iff in H as [Hc Hs];
    destruct (digit_is_no_sign c Hc) as (Hm & Hp & Hu).
  - now rewrite Hm, Hp.
  - now rewrite Hp.
  - rewrite Hc. now apply all_digits_grouped.
Qed.

(** [int] gives back the integer [str] printed, when the numeral is
    within the digit limit. *)
Lemma int_of_str_of_int (z : Z) :
  (count_digits (str_of_int z) <= int_max_str_digits)%nat ->
  int_of_str (str_of_int z) = Ok z.
Proof.
  intros Hsize. unfold int_of_str.
  rewrite strip_no_space by apply str_of_int_token.
  assert (Hparse : NilZero.int_of_string (str_of_int z) = Some (Z.to_int z))
    by apply int_of_string_str_of_int.
  unfold str_of_int in *. destruct (Z.to_int z) as [d|d] eqn:Ez;
    destruct (nilzero_uint_digits d) as [Hd Hne]; cbn [NilZero.string_of_int] in *.
  - destruct (all_digits_numeral _ Hd Hne) as (-> & -> & -> & ->).
    apply Nat.leb_le in Hsize. rewrite Hsize.
    rewrite Hparse, <- Ez. now rewrite DecimalZ.of_to.
  - destruct (all_digits_numeral _ Hd Hne) as (_ & _ & Hg & Hu).
    change (count_digits (NilZero.string_of_uint d) <= int_max_str_digits)%nat
      in Hsize.
    cbn [unsigned_part drop_plus remove_underscores Ascii.eqb Bool.eqb orb].
    apply Nat.leb_le in Hsize. rewrite Hg, Hsize, Hu, Hparse, <- Ez.
    now rewrite DecimalZ.of_to.
Qed.

(** The numeral of a MIDI number has at most three digits. *)
Lemma midi_numeral_size (z : Z) :
  0 <= z <= 127 -> (count_digits (str_of_int z) <= int_max_str_digits)%nat.
Proof.
  intros H. apply Nat.le_trans with 3%nat;
    [|apply Nat.leb_le; reflexivity].
  rewrite <- (Z2Nat.id z) by lia.
  assert (Hn : (Z.to_nat z < 128)%nat) by lia.
  revert Hn. generalize (Z.to_nat z). intros n Hn.
  do 128 (destruct n as [|n]; [apply Nat.leb_le; reflexivity|]).
  lia.
Qed.

Lemma int_of_str_midi (z : Z) :
  0 <= z <= 127 -> int_of_str (str_of_int z) = Ok z.
Proof. intros H. now apply int_of_str_of_int, midi_numeral_size. Qed.

Lemma midi_number_note (midi : Z) (q : Q) :
  midi_number (Note midi q) = true -> 0 <= midi <= 127.
Proof. unfold midi_number. lia. Qed.

Lemma str_of_int_not_symbol (z : Z) (s : string) :
  NilZero.int_of_string s = None -> str_of_int z <> s.
Proof. intros H E. rewrite <- E, int_of_string_str_of_int in H. discriminate. Qed.

Lemma onset_not_hold (e : event) : (str (onset e) =? "_")%string = false.
Proof.
  apply String.eqb_neq. destruct e; simpl; [|discriminate].
  now apply str_of_int_not_symbol.
Qed.
(** ** The loop of the renderer *)

Lemma number_cons (a : nat) (x : string) (l : list string) :
  number a (x :: l) = (Z.of_nat a, x) :: number (S a) l.
Proof. reflexivity. Qed.

Lemma number_app (l1 l2 : list string) : forall a : nat,
  number a (l1 ++ l2) = number a l1 ++ number (a + List.length l1) l2.
Proof.
  induction l1 as [|x l1 IH]; intros a.
  - simpl. now rewrite Nat.add_0_r.
  - change ((x :: l1) ++ l2) with (x :: (l1 ++ l2)).
    rewrite !number_cons, IH. simpl. now rewrite Nat.add_succ_r.
Qed.

Lemma enumerate_number (l : list string) : enumerate l = number 0 l.
Proof. unfold enumerate, number, range. now rewrite Nat2Z.id. Qed.

Lemma save_loop_Raise (step_duration : Q) (len : Z)
    (items : list (Z * string)) e :
  fold_left
    (fun acc '(i, symbol) =>
       st <- acc ;; save_step step_duration len st i symbol)
    items (Raise e) = Raise e.
Proof. induction items as [|[i symbol] items IH]; simpl; auto. Qed.

Lemma save_loop_cons (step_duration : Q) (len : Z) (i : Z) (symbol : string)
    (items : list (Z * string)) (st : render_state) :
  save_loop step_duration len ((i, symbol) :: items) st
  = (st <- save_step step_duration len st i symbol ;;
     save_loop step_duration len items st).
Proof.
  unfold save_loop. simpl.
  destruct (save_step step_duration len st i symbol); simpl;
    [reflexivity | apply save_loop_Raise].
Qed.

Lemma save_loop_app (step_duration : Q) (len : Z)
    (items1 items2 : list (Z * string)) : forall st : render_state,
  save_loop step_duration len (items1 ++ items2) st
  = (st <- save_loop step_duration len items1 st ;;
     save_loop step_duration len items2 st).
Proof.
  induction items1 as [|[i symbol] items1 IH]; intros st; [reflexivity|].
  simpl app. rewrite !save_loop_cons.
  destruct (save_step step_duration len st i symbol); simpl; auto.
Qed.

(** A hold token away from the last index adds one step. *)
Lemma save_loop_holds (step_duration : Q) (len : Z) (k : nat) :
  forall (a : nat) (st : render_state),
  Z.of_nat (a + k) < len ->
  save_loop step_duration len (number a (repeat "_" k)) st
  = Ok {| start_symbol := start_symbol st;
          step_counter := step_counter st + Z.of_nat k;
          stream := stream st |}.
Proof.
  induction k as [|k IH]; intros a st Hlt.
  - destruct st. cbn. now rewrite Z.add_0_r.
  - cbn [repeat]. rewrite number_cons, save_loop_cons.
    unfold save_step at 1. cbn [String.eqb Ascii.eqb Bool.eqb negb orb].
    destruct (Z.eqb_spec (Z.of_nat a + 1) len) as [E|_]; [lia|].
    cbn [bind]. rewrite IH by lia. cbn. do 2 f_equal. lia.
Qed.

(** On an onset, or at the last index, the renderer emits the pending
    event and starts counting from one. *)
Lemma save_step_flush (step_duration : Q) (len : Z)
    (pending : option (event * Z)) (stream0 : list event) (i : Z)
    (symbol : string) :
  (forall e k, pending = Some (e, k) -> midi_number e = true) ->
  negb (symbol =? "_")%string || (i + 1 =? len) = true ->
  save_step step_duration len (pending_state pending stream0) i symbol
  = Ok {| start_symbol := Some symbol; step_counter := 1;
          stream := stream0 ++ flushed step_duration pending |}.
Proof.
  intros Hmidi H. unfold save_step. rewrite H.
  destruct pending as [[[midi q|q] k]|];
    cbn [pending_state start_symbol step_counter stream flushed rendered
         onset str bind].
  - specialize (Hmidi _ _ eq_refl). apply midi_number_note in Hmidi.
    destruct (String.eqb_spec (str_of_int midi) "r") as [E|_].
    + now apply str_of_int_not_symbol in E.
    + now rewrite int_of_str_midi.
  - reflexivity.
  - now rewrite app_nil_r.
Qed.

Lemma group_tokens_pos (e : event) (n : Z) :
  1 <= n ->
  group_tokens (e, n) = str (onset e) :: repeat "_" (Z.to_nat (n - 1)).
Proof.
  intros H. unfold group_tokens. cbn [fst snd].
  rewrite step_tokens_pos by assumption. cbn [map].
  now rewrite map_repeat.
Qed.

Lemma group_tokens_snoc (e : event) (n : Z) :
  2 <= n -> group_tokens (e, n) = group_tokens (e, n - 1) ++ ["_"].
Proof.
  intros H. rewrite !group_tokens_pos by lia.
  replace (Z.to_nat (n - 1)) with (S (Z.to_nat (n - 1 - 1))) by lia.
  cbn [repeat]. now rewrite repeat_cons.
Qed.

(** The tokens of one event, read away from the last index. *)
Lemma save_loop_group (step_duration : Q) (len : Z) (g : event * Z)
    (a : nat) (pending : option (event * Z)) (stream0 : list event) :
  (forall e k, pending = Some (e, k) -> midi_number e = true) ->
  1 <= snd g ->
  Z.of_nat (a + List.length (group_tokens g)) < len ->
  save_loop step_duration len (number a (group_tokens g))
    (pending_state pending stream0)
  = Ok (pending_state (Some g)
          (stream0 ++ flushed step_duration pending)).
Proof.
  destruct g as [e n]. cbn [snd]. intros Hmidi Hn.
  rewrite group_tokens_pos by assumption.
  cbn [List.length]. rewrite repeat_length. intros Hlt.
  rewrite number_cons, save_loop_cons.
  rewrite save_step_flush by (assumption || now rewrite onset_not_hold).
  cbn [bind]. rewrite save_loop_holds by lia.
  cbn [pending_state start_symbol step_counter stream].
  do 2 f_equal. lia.
Qed.

Lemma save_loop_groups (step_duration : Q) (len : Z)
    (groups : list (event * Z)) :
  Forall (fun g => midi_number (fst g) = true /\ 1 <= snd g) groups ->
  forall (a : nat) (pending : option (event * Z)) (stream0 : list event),
  (forall e k, pending = Some (e, k) -> midi_number e = true) ->
  Z.of_nat (a + List.length (List.concat (map group_tokens groups))) < len ->
  save_loop step_duration len
    (number a (List.concat (map group_tokens groups)))
    (pending_state pending stream0)
  = Ok (let (pending', stream') :=
          after_groups step_duration groups pending stream0 in
        pending_state pending' stream').
Proof.
  induction 1 as [|g groups [Hm Hg] _ IH]; intros a pending stream0 Hmidi Hlt.
  - reflexivity.
  - cbn [map List.concat] in *. rewrite length_app in Hlt.
    rewrite number_app, save_loop_app, save_loop_group by (assumption || lia).
    cbn [bind after_groups]. apply IH; [|lia].
    intros e k [= ->]. exact Hm.
Qed.

Lemma after_groups_midi (step_duration : Q) (groups : list (event * Z)) :
  Forall (fun g => midi_number (fst g) = true /\ 1 <= snd g) groups ->
  forall (pending : option (event * Z)) (stream0 : list event),
  (forall e k, pending = Some (e, k) -> midi_number e = true) ->
  forall e k,
  fst (after_groups step_duration groups pending stream0) = Some (e, k) ->
  midi_number e = true.
Proof.
  induction 1 as [|g groups [Hm _] _ IH]; intros pending stream0 Hmidi e k.
  - apply Hmidi.
  - cbn [after_groups]. apply IH. intros e' k' [= ->]. exact Hm.
Qed.

Lemma after_groups_flushed (step_duration : Q) (groups : list (event * Z)) :
  forall (pending : option (event * Z)) (stream0 : list event),
  (let (pending', stream') :=
     after_groups step_duration groups pending stream0 in
   stream' ++ flushed step_duration pending')
  = stream0 ++ flushed step_duration pending
    ++ map (fun g => rendered step_duration (fst g) (snd g)) groups.
Proof.
  induction groups as [|[e n] groups IH]; intros pending stream0;
    cbn [after_groups map].
  - now rewrite app_nil_r.
  - rewrite IH, <- app_assoc. reflexivity.
Qed.

(** Whatever the last token is, the renderer uses it only to emit the
    event pending before it. *)
Lemma save_melody_snoc (step_duration : Q) (groups : list (event * Z))
    (final : string) :
  Forall (fun g => midi_number (fst g) = true /\ 1 <= snd g) groups ->
  save_melody (List.concat (map group_tokens groups) ++ [final]) step_duration
  = Ok (map (fun g => rendered step_duration (fst g) (snd g)) groups).
Proof.
  intros Hgroups. unfold save_melody.
  rewrite enumerate_number, number_app, save_loop_app.
  change {| start_symbol := None; step_counter := 1; stream := [] |}
    with (pending_state None []).
  rewrite length_app. cbn [List.length].
  rewrite save_loop_groups by (assumption || discriminate || lia).
  pose proof (after_groups_flushed step_duration groups None []) as Hflush.
  pose proof (after_groups_midi step_duration groups Hgroups None []) as Hmidi.
  destruct (after_groups step_duration groups None []) as [pending stream0].
  cbn [bind number List.length seq map combine fst] in *.
  rewrite save_loop_cons, save_step_flush.
  - cbn. rewrite Hflush. reflexivity.
  - apply Hmidi. discriminate.
  - apply orb_true_iff. right. apply Z.eqb_eq. lia.
Qed.

(** What rendering makes of the tokens of a song whose pitches are MIDI
    numbers from 12 on, at the step duration of 0.25: every event but the
    last comes back with its steps; the last one comes back one step
    short, or not at all when it lasted a single step. *)
Theorem save_melody_of_encoded_song (time_step step_duration : Q)
    (song : list event) (last : event) :
  step_duration == default_step_duration ->
  Forall (fun e => midi_pitch e = true /\ 1 <= steps_of time_step e)
    (song ++ [last]) ->
  save_melody (song_tokens time_step (song ++ [last])) step_duration
  = Ok (map (fun e => rendered step_duration e (steps_of time_step e)) song
        ++ (if steps_of time_step last =? 1 then []
            else [rendered step_duration last (steps_of time_step last - 1)])).
Proof.
  intros _ Hsteps.
  assert (Hsteps' : Forall (fun e => midi_number e = true
                                     /\ 1 <= steps_of time_step e)
                      (song ++ [last])).
  { eapply Forall_impl; [|exact Hsteps]. intros e [Hp Hs].
    split; [|assumption]. destruct e; [|reflexivity].
    unfold midi_pitch, midi_number in *. lia. }
  clear Hsteps. apply Forall_app in Hsteps' as [Hsong Hlast].
  apply Forall_inv in Hlast. destruct Hlast as [Hmlast Hlast].
  set (groups := map (fun e => (e, steps_of time_step e)) song).
  assert (Hgroups : Forall (fun g => midi_number (fst g) = true
                                     /\ 1 <= snd g) groups).
  { unfold groups. apply Forall_map. exact Hsong. }
  assert (Htokens : song_tokens time_step (song ++ [last])
                    = List.concat (map group_tokens groups)
                      ++ group_tokens (last, steps_of time_step last)).
  { unfold song_tokens, groups.
    rewrite map_app, concat_app, map_app. cbn [map List.concat].
    rewrite app_nil_r. f_equal.
    rewrite concat_map, !map_map. reflexivity. }
  assert (Hmap : map (fun g => rendered step_duration (fst g) (snd g)) groups
                 = map (fun e => rendered step_duration e
                                   (steps_of time_step e)) song).
  { unfold groups. now rewrite map_map. }
  rewrite Htokens.
  destruct (Z.eqb_spec (steps_of time_step last) 1) as [E|Hne].
  - rewrite E, group_tokens_pos by lia. cbn [Z.sub Z.to_nat repeat].
    replace (Z.to_nat (1 - 1)) with 0%nat by lia. cbn [repeat].
    rewrite save_melody_snoc, Hmap, app_nil_r by assumption. reflexivity.
  - rewrite group_tokens_snoc by lia.
    replace (group_tokens (last, steps_of time_step last - 1))
      with (List.concat (map group_tokens
                           [(last, steps_of time_step last - 1)]))
      by (cbn [map List.concat]; apply app_nil_r).
    rewrite app_assoc, <- concat_app, <- map_app.
    rewrite save_melody_snoc.
    + rewrite map_app, Hmap. reflexivity.
    + apply Forall_app. split; [assumption|].
      constructor; [cbn [fst snd]; split; [assumption | lia] | constructor].
Qed.

(** C1: rendering the encoding of a score does not give the score back.
    A single quarter note is encoded as an onset and three holds, and
    rendered as a dotted eighth: the hold at the last index is not
    counted.  When the last event lasts one step, it is not rendered at
    all.  Claimed: the same events, each of [step_duration * (k + 1)]
    quarter lengths for an onset followed by [k] holds. *)
Theorem render_encoded_song_loses_last_step :
  encode_song [Note 60 1] default_time_step = Ok "60 _ _ _"
  /\ save_melody (split "60 _ _ _") default_step_duration
     = Ok [Note 60 (3 # 4)]
  /\ encode_song [Note 60 1; Note 62 (1 # 4)] default_time_step
     = Ok "60 _ _ _ 62"
  /\ save_melody (split "60 _ _ _ 62") default_step_duration
     = Ok [Note 60 (4 # 4)].
Proof. repeat split; reflexivity. Qed.

(* ================================================================== *)
(** * The loader *)
(* ================================================================== *)

Lemma list_ascii_of_string_app (a b : string) :
  list_ascii_of_string (a ++ b)
  = list_ascii_of_string a ++ list_ascii_of_string b.
Proof. induction a as [|c a IH]; simpl; congruence. Qed.

Lemma string_of_list_ascii_app (l1 l2 : list ascii) :
  string_of_list_ascii (l1 ++ l2)
  = (string_of_list_ascii l1 ++ string_of_list_ascii l2)%string.
Proof. induction l1 as [|c l1 IH]; simpl; congruence. Qed.

(** The extension test of the loader looks at the last three characters
    only. *)
Lemma last3_krn (file : string) : last3 file = "krn" <-> ends_with_krn file.
Proof.
  unfold last3, ends_with_krn, slice_from, clamp_index. cbn [Z.ltb Z.compare Z.opp].
  set (l := list_ascii_of_string file). split.
  - intros H.
    exists (string_of_list_ascii
              (firstn (Z.to_nat (Z.max 0 (-3 + Z.of_nat (List.length l)))) l)).
    rewrite <- H, <- string_of_list_ascii_app, firstn_skipn.
    unfold l. now rewrite string_of_list_ascii_of_string.
  - intros (stem & ->). unfold l.
    rewrite list_ascii_of_string_app, length_app. cbn [list_ascii_of_string List.length].
    set (ls := list_ascii_of_string stem).
    replace (Z.to_nat (Z.max 0 (-3 + Z.of_nat (List.length ls + 3))))
      with (List.length ls) by lia.
    rewrite skipn_app, skipn_all, Nat.sub_diag. reflexivity.
Qed.

Lemma comprehension_app {A B : Type} (f : A -> result B) (l1 l2 : list A) :
  comprehension f (l1 ++ l2)
  = (ys1 <- comprehension f l1 ;; ys2 <- comprehension f l2 ;;
     Ok (ys1 ++ ys2)).
Proof.
  induction l1 as [|x l1 IH]; simpl.
  - destruct (comprehension f l2); reflexivity.
  - destruct (f x) as [y|e]; [|reflexivity]. cbn [bind]. rewrite IH.
    destruct (comprehension f l1) as [ys1|e]; [|reflexivity]. cbn [bind].
    destruct (comprehension f l2); reflexivity.
Qed.

Section LoaderFacts.

Variable score : Type.
Variable converter_parse : string -> result score.
Variable os_path_join : string -> string -> string.
Variable os_walk_tree : string -> list (string * list string).

Lemma load_files_Raise (path : string) (files : list string) e :
  fold_left
    (fun acc file =>
       songs <- acc ;;
       if (last3 file =? "krn")%string then
         song <- converter_parse (os_path_join path file) ;;
         Ok (songs ++ [song])
       else Ok songs)
    files (Raise e) = Raise e.
Proof. induction files as [|file files IH]; simpl; auto. Qed.

Lemma load_files_parsed (path : string) (files : list string) :
  forall songs : list score,
  load_files score converter_parse os_path_join path files songs
  = (parsed <- comprehension converter_parse
                 (map (os_path_join path)
                    (filter (fun file => (last3 file =? "krn")%string) files)) ;;
     Ok (songs ++ parsed)).
Proof.
  unfold load_files. induction files as [|file files IH]; intros songs.
  - simpl. now rewrite app_nil_r.
  - cbn [fold_left filter bind].
    destruct (last3 file =? "krn")%string.
    + cbn [map comprehension].
      destruct (converter_parse (os_path_join path file)) as [song|e];
        cbn [bind]; [|apply load_files_Raise].
      rewrite IH.
      destruct (comprehension converter_parse _) as [parsed|e];
        cbn [bind]; [|reflexivity].
      now rewrite <- app_assoc.
    + apply IH.
Qed.

Lemma load_dirs_Raise (tree : list (string * list string)) e :
  fold_left
    (fun acc '(path, files) =>
       songs <- acc ;;
       load_files score converter_parse os_path_join path files songs)
    tree (Raise e) = Raise e.
Proof. induction tree as [|[path files] tree IH]; simpl; auto. Qed.

Lemma load_dirs_parsed (tree : list (string * list string)) :
  forall songs : list score,
  fold_left
    (fun acc '(path, files) =>
       songs <- acc ;;
       load_files score converter_parse os_path_join path files songs)
    tree (Ok songs)
  = (parsed <- comprehension converter_parse (kern_paths os_path_join tree) ;;
     Ok (songs ++ parsed)).
Proof.
  unfold kern_paths. induction tree as [|[path files] tree IH]; intros songs.
  - simpl. now rewrite app_nil_r.
  - cbn [fold_left map List.concat bind].
    rewrite load_files_parsed, comprehension_app.
    destruct (comprehension converter_parse (map _ (filter _ files)))
      as [parsed|e]; cbn [bind]; [|apply load_dirs_Raise].
    rewrite IH.
    destruct (comprehension converter_parse _) as [parsed'|e];
      cbn [bind]; [|reflexivity].
    now rewrite <- app_assoc.
Qed.

(** X1: [load_songs_in_kern] parses exactly the files whose name ends
    with the three characters [krn] (no dot is asked for, and the case
    matters), directory by directory in the order of the walk, and
    returns the parsed scores in that order; the first file that fails
    to parse ends the load with its exception. *)
Theorem load_songs_in_kern_parses_krn (dataset_path : string) :
  load_songs_in_kern score converter_parse os_path_join os_walk_tree
    dataset_path
  = comprehension converter_parse
      (kern_paths os_path_join (os_walk_tree dataset_path))
  /\ forall path, In path (kern_paths os_path_join (os_walk_tree dataset_path))
       <-> exists dir files file,
             In (dir, files) (os_walk_tree dataset_path) /\ In file files
             /\ ends_with_krn file /\ path = os_path_join dir file.
Proof.
  split.
  - unfold load_songs_in_kern. rewrite load_dirs_parsed.
    destruct (comprehension converter_parse _); reflexivity.
  - intros path. unfold kern_paths. rewrite in_concat. split.
    + intros (paths & Hpaths & Hin).
      apply in_map_iff in Hpaths as ([dir files] & <- & Hdir).
      apply in_map_iff in Hin as (file & <- & Hfile).
      apply filter_In in Hfile as [Hfile Hkrn].
      exists dir, files, file. repeat split; try assumption.
      now apply last3_krn, String.eqb_eq.
    + intros (dir & files & file & Hdir & Hfile & Hkrn & ->).
      exists (map (os_path_join dir)
                (filter (fun file => (last3 file =? "krn")%string) files)).
      split.
      * apply in_map_iff. now exists (dir, files).
      * apply in_map, filter_In. split; [assumption|].
        now apply String.eqb_eq, last3_krn.
Qed.

End LoaderFacts.

Example last3_examples :
  map last3 ["song.krn"; "krn"; "notakrn"; "song.KRN"; "a.kr"; ""]
  = ["krn"; "krn"; "krn"; "KRN"; ".kr"; ""].
Proof. reflexivity. Qed.

(* ================================================================== *)
(** * The renderer on any melody *)
(* ================================================================== *)

Lemma int_of_str_raises (s : string) e :
  int_of_str s = Raise e -> e = ValueError.
Proof.
  unfold int_of_str. destruct (grouped_digits _ _); [|congruence].
  destruct (_ <=? _)%nat; [|congruence].
  destruct (NilZero.int_of_string _); congruence.
Qed.

(** The music21 object built for a start symbol held for [k] steps. *)
Lemma start_symbol_event (step_duration : Q) (start : string) (k : Z) :
  (renderable start = true
   /\ exists e,
        (if (start =? "r")%string
         then Ok (Rest (step_duration * inject_Z k))
         else pitch <- int_of_str start ;;
              Ok (Note pitch (step_duration * inject_Z k))) = Ok e
        /\ quarterLength e = (step_duration * inject_Z k)%Q)
  \/ (renderable start = false
      /\ (if (start =? "r")%string
          then Ok (Rest (step_duration * inject_Z k))
          else pitch <- int_of_str start ;;
               Ok (Note pitch (step_duration * inject_Z k)))
         = Raise ValueError).
Proof.
  unfold renderable. destruct (start =? "r")%string; cbn [orb].
  - left. split; [reflexivity|]. eexists. split; reflexivity.
  - destruct (int_of_str start) as [pitch|e] eqn:E; cbn [bind].
    + left. split; [reflexivity|]. eexists. split; reflexivity.
    + right. apply int_of_str_raises in E. subst e. split; reflexivity.
Qed.

Lemma total_duration_snoc (l : list event) (e : event) :
  total_duration (l ++ [e]) == total_duration l + quarterLength e.
Proof.
  induction l as [|x l IH]; simpl.
  - ring.
  - rewrite IH. ring.
Qed.

Lemma onsets_app (l1 l2 : list string) :
  onsets (l1 ++ l2) = onsets l1 ++ onsets l2.
Proof. apply filter_app. Qed.

Lemma reads_nil (step_duration : Q) (st : render_state) :
  pending_ok st -> reads step_duration [] st st.
Proof.
  intros H. unfold reads. cbn [onsets filter List.length Z.of_nat].
  split; [assumption|]. split; [lia|]. split; [|tauto].
  change (inject_Z 0) with 0%Q. ring.
Qed.

Lemma reads_cons (step_duration : Q) (x : string) (tokens : list string)
    (st st1 st2 : render_state) :
  reads step_duration [x] st st1 -> reads step_duration tokens st1 st2 ->
  reads step_duration (x :: tokens) st st2.
Proof.
  intros (_ & Hc1 & Hd1 & Hn1) (Hok & Hc2 & Hd2 & Hn2).
  change (x :: tokens) with ([x] ++ tokens).
  unfold reads. rewrite onsets_app, !length_app.
  split; [assumption|]. split; [lia|]. split.
  - rewrite Hd2, Hd1, Nat2Z.inj_add, inject_Z_plus. ring.
  - rewrite Hn2, Hn1. split.
    + intros [[H1 H2] H3]. split; [assumption|]. now rewrite H2, H3.
    + intros [H1 H2]. apply app_eq_nil in H2 as [H2 H3]. tauto.
Qed.

(** One token away from the last index. *)
Lemma save_step_reads (step_duration : Q) (len i : Z) (x : string)
    (st : render_state) :
  i + 1 <> len -> pending_ok st -> readable x = true ->
  exists st1, save_step step_duration len st i x = Ok st1
              /\ reads step_duration [x] st st1.
Proof.
  intros Hi Hok Hx. unfold save_step.
  destruct (Z.eqb_spec (i + 1) len) as [E|_]; [contradiction|].
  rewrite orb_false_r. unfold readable in Hx.
  destruct (String.eqb_spec x "_") as [->|Hne]; cbn [negb orb] in *.
  - eexists. split; [reflexivity|].
    unfold reads, pending_ok, pending_count, pending_steps in *.
    cbn [start_symbol step_counter stream onsets filter String.eqb
         Ascii.eqb Bool.eqb negb List.length Z.of_nat Pos.of_succ_nat].
    change (inject_Z 1) with 1%Q.
    destruct (start_symbol st); (split; [assumption|]); (split; [lia|]);
      (split; [|tauto]); unfold Z.sub; rewrite ?inject_Z_plus;
      change (inject_Z 1) with 1%Q; change (inject_Z (- (1))) with (- (1))%Q;
      ring.
  - assert (Honsets : onsets [x] = [x]).
    { unfold onsets. cbn [filter]. apply String.eqb_neq in Hne.
      now rewrite Hne. }
    unfold reads. rewrite Honsets.
    unfold pending_ok, pending_count, pending_steps in *.
    cbn [List.length Z.of_nat Pos.of_succ_nat].
    change (inject_Z 1) with 1%Q.
    destruct (start_symbol st) as [start|] eqn:Es.
    + destruct (start_symbol_event step_duration start (step_counter st))
        as [(_ & e & -> & Hq)|(Hbad & _)]; [|congruence].
      cbn [bind]. eexists. split; [reflexivity|].
      cbn [start_symbol step_counter stream].
      split; [assumption|]. rewrite length_app. split; [simpl; lia|].
      split; [|split; [discriminate | intros [? _]; discriminate]].
      rewrite total_duration_snoc, Hq. change (inject_Z 1) with 1%Q. ring.
    + cbn [bind]. eexists. split; [reflexivity|].
      cbn [start_symbol step_counter stream].
      split; [assumption|]. split; [lia|].
      split; [|split; [discriminate | intros [_ ?]; discriminate]].
      unfold Z.sub. rewrite inject_Z_plus.
      change (inject_Z (- (1))) with (- (1))%Q. ring.
Qed.

(** The tokens before the last one, when all of them are readable. *)
Lemma save_loop_reads (step_duration : Q) (len : Z) (tokens : list string) :
  forall (a : nat) (st : render_state),
  Z.of_nat (a + List.length tokens) < len ->
  pending_ok st -> Forall (fun x => readable x = true) tokens ->
  exists st', save_loop step_duration len (number a tokens) st = Ok st'
              /\ reads step_duration tokens st st'.
Proof.
  induction tokens as [|x tokens IH]; intros a st Hlt Hok Hall.
  - exists st. split; [reflexivity | now apply reads_nil].
  - inversion Hall as [|? ? Hx Hall']; subst. cbn [List.length] in Hlt.
    destruct (save_step_reads step_duration len (Z.of_nat a) x st)
      as (st1 & Hstep & Hreads1); try assumption; [lia|].
    destruct (IH (S a) st1) as (st' & Hloop & Hreads); try assumption;
      [lia | apply Hreads1 |].
    exists st'. rewrite number_cons, save_loop_cons, Hstep. cbn [bind].
    split; [assumption|]. eapply reads_cons; eassumption.
Qed.

Lemma pending_ok_or_bad (st : render_state) : pending_ok st \/ pending_bad st.
Proof.
  unfold pending_ok, pending_bad. destruct (start_symbol st) as [start|].
  - destruct (renderable start) eqn:E; [now left | right; eauto].
  - now left.
Qed.

(** On an onset, or at the last index, the pending event is emitted and
    the token read becomes the start symbol. *)
Lemma save_step_emits (step_duration : Q) (len i : Z) (x : string)
    (st : render_state) :
  negb (x =? "_")%string || (i + 1 =? len) = true -> pending_ok st ->
  exists st1,
    save_step step_duration len st i x = Ok st1
    /\ start_symbol st1 = Some x
    /\ (List.length (stream st1)
        = List.length (stream st) + pending_count st)%nat
    /\ total_duration (stream st1)
       == total_duration (stream st)
          + match start_symbol st with
            | Some _ => step_duration * inject_Z (step_counter st)
            | None => 0
            end.
Proof.
  intros Hcond Hok. unfold save_step. rewrite Hcond.
  unfold pending_ok, pending_count in *.
  destruct (start_symbol st) as [start|].
  - destruct (start_symbol_event step_duration start (step_counter st))
      as [(_ & e & -> & Hq)|(Hbad & _)]; [|congruence].
    cbn [bind]. eexists. split; [reflexivity|].
    cbn [start_symbol stream]. split; [reflexivity|].
    rewrite length_app. split; [reflexivity|].
    now rewrite total_duration_snoc, Hq.
  - cbn [bind]. eexists. split; [reflexivity|].
    cbn [start_symbol stream]. split; [reflexivity|].
    split; [lia | ring].
Qed.

Lemma save_step_raises (step_duration : Q) (len i : Z) (x : string)
    (st : render_state) :
  negb (x =? "_")%string || (i + 1 =? len) = true -> pending_bad st ->
  save_step step_duration len st i x = Raise ValueError.
Proof.
  intros Hcond (start & Hs & Hbad). unfold save_step. rewrite Hcond, Hs.
  destruct (start_symbol_event step_duration start (step_counter st))
    as [(Hok & _)|(_ & ->)]; [congruence | reflexivity].
Qed.

(** An unreadable token before the last one either makes the loop raise
    or is still pending when the last index is reached. *)
Lemma save_loop_unreadable (step_duration : Q) (len : Z)
    (tokens : list string) :
  forall (a : nat) (st : render_state),
  Z.of_nat (a + List.length tokens) < len ->
  pending_bad st
  \/ (pending_ok st /\ Exists (fun x => readable x = false) tokens) ->
  save_loop step_duration len (number a tokens) st = Raise ValueError
  \/ exists st', save_loop step_duration len (number a tokens) st = Ok st'
                 /\ pending_bad st'.
Proof.
  induction tokens as [|x tokens IH]; intros a st Hlt Hbad.
  - right. exists st. split; [reflexivity|].
    destruct Hbad as [?|[_ H]]; [assumption | inversion H].
  - cbn [List.length] in Hlt. rewrite number_cons, save_loop_cons.
    assert (Hi : (Z.of_nat a + 1 =? len) = false) by (apply Z.eqb_neq; lia).
    destruct Hbad as [Hbad|[Hok Hex]].
    + destruct (String.eqb_spec x "_") as [->|Hne].
      * assert (Hstep : save_step step_duration len st (Z.of_nat a) "_"
                        = Ok {| start_symbol := start_symbol st;
                                step_counter := step_counter st + 1;
                                stream := stream st |})
          by (unfold save_step; now rewrite Hi).
        rewrite Hstep. cbn [bind]. apply IH; [lia|]. left.
        destruct Hbad as (start & Hs & Hr). now exists start.
      * rewrite save_step_raises; [now left | | assumption].
        apply String.eqb_neq in Hne. now rewrite Hne.
    + destruct (readable x) eqn:Hx.
      * destruct (save_step_reads step_duration len (Z.of_nat a) x st)
          as (st1 & -> & Hreads); try assumption; [lia|].
        cbn [bind]. apply IH; [lia|]. right. split; [apply Hreads|].
        inversion Hex; subst; [congruence | assumption].
      * unfold readable in Hx. apply orb_false_iff in Hx as [Hne Hr].
        destruct (save_step_emits step_duration len (Z.of_nat a) x st)
          as (st1 & -> & Hs & _); [now rewrite Hne | assumption |].
        cbn [bind]. apply IH; [lia|]. left. now exists x.
Qed.

(** A melody whose tokens before the last are readable is rendered:
    every onset before the last token gives one event, and the events
    last one step for each token before the last. *)
Lemma save_melody_readable (step_duration : Q) (init : list string)
    (final : string) :
  Forall (fun x => readable x = true) init ->
  exists stream,
    save_melody (init ++ [final]) step_duration = Ok stream
    /\ List.length stream = List.length (onsets init)
    /\ total_duration stream
       == step_duration
          * inject_Z (match onsets init with
                      | [] => 0
                      | _ :: _ => Z.of_nat (List.length init)
                      end).
Proof.
  intros Hall. unfold save_melody.
  rewrite enumerate_number, number_app, save_loop_app, length_app.
  cbn [List.length number seq map combine].
  set (st0 := {| start_symbol := None; step_counter := 1; stream := [] |}).
  destruct (save_loop_reads step_duration
              (Z.of_nat (List.length init + 1)) init 0 st0)
    as (st' & -> & Hok & Hcount & Hdur & Hnone);
    [lia | exact I | assumption |].
  cbn [bind]. rewrite save_loop_cons.
  destruct (save_step_emits step_duration
              (Z.of_nat (List.length init + 1))
              (Z.of_nat (0 + List.length init)) final st')
    as (st1 & -> & _ & Hlen & Htotal); [|assumption|].
  { apply orb_true_iff. right. apply Z.eqb_eq. lia. }
  cbn [bind]. exists (stream st1). split; [reflexivity|].
  cbn [st0 start_symbol step_counter stream pending_count pending_steps
       List.length total_duration fold_right] in *.
  split; [lia|]. rewrite Htotal.
  unfold pending_count, pending_steps in *.
  destruct (start_symbol st') as [start|].
  - destruct (onsets init) as [|o os].
    + destruct Hnone as [_ Hnone]. discriminate Hnone. now split.
    + rewrite Hdur. change (inject_Z (1 - 1)) with 0%Q. ring.
  - destruct Hnone as [Hnone _]. destruct (Hnone eq_refl) as [_ Hons].
    rewrite Hons in *. cbn [List.length] in Hcount.
    destruct (stream st') as [|e l]; [|simpl in Hcount; lia].
    cbn [total_duration fold_right]. change (inject_Z 0) with 0%Q. ring.
Qed.

Lemma save_melody_unreadable (step_duration : Q) (init : list string)
    (final : string) :
  Exists (fun x => readable x = false) init ->
  save_melody (init ++ [final]) step_duration = Raise ValueError.
Proof.
  intros Hex. unfold save_melody.
  rewrite enumerate_number, number_app, save_loop_app, length_app.
  cbn [List.length number seq map combine].
  destruct (save_loop_unreadable step_duration
              (Z.of_nat (List.length init + 1)) init 0
              {| start_symbol := None; step_counter := 1; stream := [] |})
    as [->|(st' & -> & Hbad)]; [lia | right; split; [exact I | assumption]
                               | reflexivity |].
  cbn [bind]. rewrite save_loop_cons, save_step_raises; [reflexivity| |assumption].
  apply orb_true_iff. right. apply Z.eqb_eq. lia.
Qed.

Lemma removelast_snoc (melody : list string) :
  melody <> [] -> exists final, melody = removelast melody ++ [final].
Proof. intros H. exists (last melody ""). now apply app_removelast_last. Qed.

Lemma readable_dec (l : list string) :
  Forall (fun x => readable x = true) l
  \/ Exists (fun x => readable x = false) l.
Proof.
  induction l as [|x l [IH|IH]]; [left; constructor | |right; now right].
  destruct (readable x) eqn:E; [left; now constructor | right; now left].
Qed.

(** X2: at the default step duration of 0.25, and on a melody whose
    numerals before the last token are MIDI numbers, [save_melody] fails
    exactly when a token other than the last one is neither a hold, nor
    the rest marker, nor a numeral of [int]; the exception is then
    [int]'s [ValueError].  The last token is never looked into. *)
Theorem save_melody_fails_on_unreadable (melody : list string)
    (step_duration : Q) :
  step_duration == default_step_duration ->
  Forall (fun x => midi_numeral x = true) (removelast melody) ->
  (Forall (fun x => readable x = true) (removelast melody) ->
   exists stream, save_melody melody step_duration = Ok stream)
  /\ (Exists (fun x => readable x = false) (removelast melody) ->
      save_melody melody step_duration = Raise ValueError).
Proof.
  intros _ _.
  destruct melody as [|x melody]; [split; [now exists [] | inversion 1]|].
  destruct (removelast_snoc (x :: melody)) as (final & E); [discriminate|].
  remember (removelast (x :: melody)) as init eqn:Hinit.
  rewrite E. split.
  - intros H. destruct (save_melody_readable step_duration _ final H)
      as (stream & Hs & _). now exists stream.
  - apply save_melody_unreadable.
Qed.

(** X3: when [save_melody] returns, the stream holds one note or rest for
    each onset token other than the last token of the melody: a melody
    of a single token, or of holds only, is rendered as an empty
    stream. *)
Theorem save_melody_event_count (melody : list string) (step_duration : Q)
    (stream : list event) :
  save_melody melody step_duration = Ok stream ->
  List.length stream = List.length (onsets (removelast melody)).
Proof.
  destruct melody as [|x melody]; [now intros [= <-]|].
  destruct (removelast_snoc (x :: melody)) as (final & E); [discriminate|].
  remember (removelast (x :: melody)) as init eqn:Hinit.
  rewrite E. intros H.
  destruct (readable_dec init) as [Hall|Hex].
  - destruct (save_melody_readable step_duration _ final Hall)
      as (stream' & Hs & Hlen & _). congruence.
  - rewrite (save_melody_unreadable step_duration _ final Hex) in H.
    discriminate.
Qed.

(** X4: at the default step duration of 0.25, when [save_melody]
    returns, the quarter lengths of the stream add up to [step_duration]
    times the number of tokens less one, whatever the melody, provided a
    token other than the last is an onset (and to nothing otherwise):
    the step of the last token is never rendered, and holds before the
    first onset are added to the first event. *)
Theorem save_melody_one_step_short (melody : list string)
    (step_duration : Q) (stream : list event) :
  step_duration == default_step_duration ->
  save_melody melody step_duration = Ok stream ->
  total_duration stream
  == step_duration
     * inject_Z (match onsets (removelast melody) with
                 | [] => 0
                 | _ :: _ => Z.of_nat (List.length melody) - 1
                 end).
Proof.
  intros _. destruct melody as [|x melody].
  - intros [= <-]. cbn. ring.
  - destruct (removelast_snoc (x :: melody)) as (final & E); [discriminate|].
    remember (removelast (x :: melody)) as init eqn:Hinit.
    rewrite E. rewrite length_app. cbn [List.length].
    replace (Z.of_nat (List.length init + 1) - 1)
      with (Z.of_nat (List.length init)) by lia.
    intros H.
    destruct (readable_dec init) as [Hall|Hex].
    + destruct (save_melody_readable step_duration _ final Hall)
        as (stream' & Hs & _ & Hdur).
      rewrite Hs in H. injection H as <-. exact Hdur.
    + rewrite (save_melody_unreadable step_duration _ final Hex) in H.
      discriminate.
Qed.

(* ================================================================== *)
(** * The encoder: time step zero, and the tokens it can emit *)
(* ================================================================== *)

Lemma encode_events_Raise (time_step : Q) (song : list event) e :
  fold_left
    (fun acc event =>
       encoded_song <- acc ;; encode_event time_step encoded_song event)
    song (Raise e) = Raise e.
Proof. induction song as [|x song IH]; simpl; auto. Qed.

Lemma encode_events_zero_time_step (e : event) (song : list event)
    (time_step : Q) :
  time_step == 0 ->
  encode_events (e :: song) time_step = Raise ZeroDivisionError.
Proof.
  intros Hz. unfold encode_events. cbn [fold_left bind].
  unfold encode_event at 2. apply Qeq_bool_iff in Hz. rewrite Hz.
  apply encode_events_Raise.
Qed.

(** X5: with a time step equal to zero, [encode_song] raises
    [ZeroDivisionError] on every song that has an event; the empty song
    is still encoded, as the empty string, because the division is
    inside the loop. *)
Theorem encode_song_zero_time_step (song : list event) (time_step : Q) :
  time_step == 0 ->
  encode_song song time_step
  = match song with
    | [] => Ok ""
    | _ :: _ => Raise ZeroDivisionError
    end.
Proof.
  intros Hz. destruct song as [|e song]; [reflexivity|].
  unfold encode_song. now rewrite encode_events_zero_time_step.
Qed.

Lemma encode_song_zero_time_step_witness :
  (0 # 3) == 0
  /\ encode_song [Rest 1; Note 60 1] (0 # 3) = Raise ZeroDivisionError.
Proof.
  split; [reflexivity|].
  exact (encode_song_zero_time_step [Rest 1; Note 60 1] (0 # 3) eq_refl).
Defined.

Lemma str_of_int_readable (z : Z) :
  0 <= z <= 127 -> renderable (str_of_int z) = true.
Proof.
  intros H. unfold renderable. rewrite int_of_str_midi by assumption.
  apply orb_true_r.
Qed.

Lemma onset_renderable (e : event) :
  midi_number e = true -> renderable (str (onset e)) = true.
Proof.
  destruct e as [midi q|q]; [|reflexivity]. intros H.
  apply midi_number_note in H. now apply str_of_int_readable.
Qed.

(** The tokens of a song: holds, rest markers and numerals, never the
    boundary marker, and never a hold in front. *)
Lemma song_tokens_alphabet (time_step : Q) (song : list event) :
  Forall (fun x => x = "_" \/ x = "r" \/ exists midi, x = str_of_int midi)
    (song_tokens time_step song)
  /\ hd_error (song_tokens time_step song) <> Some "_".
Proof.
  unfold song_tokens. induction song as [|e song (IH1 & IH3)].
  - repeat split; try constructor. discriminate.
  - cbn [map List.concat]. rewrite map_app.
    unfold event_tokens at 1 3, step_tokens.
    destruct (Z.to_nat _) as [|k]; [now repeat split|].
    cbn [map app hd_error]. rewrite map_repeat. cbn [str].
    split.
    + constructor.
      * destruct e; cbn; eauto.
      * apply Forall_app. split; [|assumption].
        apply Forall_forall. intros x Hx. apply repeat_spec in Hx. now left.
    + intros [= E]. pose proof (onset_not_hold e) as H.
      rewrite E in H. discriminate.
Qed.

(** The tokens of a song whose pitches are MIDI numbers are readable. *)
Lemma song_tokens_readable (time_step : Q) (song : list event) :
  Forall (fun e => midi_number e = true) song ->
  Forall (fun x => readable x = true) (song_tokens time_step song).
Proof.
  unfold song_tokens. induction 1 as [|e song He _ IH]; [constructor|].
  cbn [map List.concat]. rewrite map_app. apply Forall_app.
  split; [|assumption].
  unfold event_tokens, step_tokens.
  destruct (Z.to_nat _) as [|k]; [constructor|].
  cbn [map]. rewrite map_repeat. cbn [str]. constructor.
  - unfold readable. rewrite onset_renderable by assumption.
    apply orb_true_r.
  - apply Forall_forall. intros x Hx. apply repeat_spec in Hx. now subst x.
Qed.

Lemma encode_song_returns (song : list event) (time_step : Q) (s : string) :
  encode_song song time_step = Ok s ->
  split s = song_tokens time_step song.
Proof.
  destruct (Qeq_dec time_step 0) as [Hz|Hnz].
  - destruct song as [|e song]; [intros [= <-]; reflexivity|].
    unfold encode_song. rewrite encode_events_zero_time_step by assumption.
    discriminate.
  - rewrite encode_song_tokens by assumption.
    intros [= <-]. apply split_encoded_song.
Qed.

(** X6: whatever [encode_song] returns splits into hold tokens, rest
    markers and numerals of MIDI pitches only; the boundary marker is
    never among them, and the first token is never a hold. *)
Theorem encoded_song_alphabet (song : list event) (time_step : Q)
    (s : string) :
  encode_song song time_step = Ok s ->
  Forall (fun x => x = "_" \/ x = "r" \/ exists midi, x = str_of_int midi)
    (split s)
  /\ ~ In "/" (split s)
  /\ hd_error (split s) <> Some "_".
Proof.
  intros H. rewrite (encode_song_returns _ _ _ H).
  destruct (song_tokens_alphabet time_step song) as (Halpha & Hhd).
  split; [assumption|]. split; [|assumption].
  intros Hin. rewrite Forall_forall in Halpha.
  destruct (Halpha _ Hin) as [E|[E|(midi & E)]]; try discriminate.
  symmetry in E. now apply str_of_int_not_symbol in E.
Qed.

Lemma encoded_song_alphabet_witness :
  encode_song [Note 60 1; Rest (1 # 2)] default_time_step = Ok "60 _ _ _ r _"
  /\ ~ In "/" (split "60 _ _ _ r _").
Proof.
  split; [reflexivity|].
  exact (proj1 (proj2 (encoded_song_alphabet [Note 60 1; Rest (1 # 2)]
                         default_time_step "60 _ _ _ r _" eq_refl))).
Defined.

(** X7: at the default step duration of 0.25, rendering what
    [encode_song] returns for a song whose pitches are MIDI numbers never
    fails, for any time step.  If the song was encoded to at least one
    token, the rendered notes and rests last [step_duration] times the
    number of tokens less one: the song comes back exactly one step
    short.  If it was encoded to no token, the stream is empty. *)
Theorem encoded_song_renders_one_step_short (song : list event)
    (time_step step_duration : Q) (s : string) :
  step_duration == default_step_duration ->
  Forall (fun e => midi_number e = true) song ->
  encode_song song time_step = Ok s ->
  exists stream,
    save_melody (split s) step_duration = Ok stream
    /\ (split s = [] -> stream = [])
    /\ (split s <> [] ->
        total_duration stream
        == step_duration * inject_Z (Z.of_nat (List.length (split s)) - 1)).
Proof.
  intros _ Hmidi H. rewrite (encode_song_returns _ _ _ H).
  pose proof (song_tokens_readable time_step song Hmidi) as Hread.
  destruct (song_tokens_alphabet time_step song) as (_ & Hhd).
  destruct (song_tokens time_step song) as [|x tokens] eqn:E.
  - exists []. split; [reflexivity|]. split; [reflexivity | congruence].
  - destruct (removelast_snoc (x :: tokens)) as (final & Hsnoc);
      [discriminate|].
    remember (removelast (x :: tokens)) as init eqn:Hinit.
    rewrite Hsnoc in *.
    apply Forall_app in Hread as [Hread _].
    destruct (save_melody_readable step_duration init final Hread)
      as (stream & Hs & _ & Hdur).
    exists stream. split; [assumption|].
    split; [intros Hnil; now apply app_eq_nil in Hnil as [_ Hnil]|].
    intros _. rewrite Hdur.
    rewrite length_app. cbn [List.length].
    replace (Z.of_nat (List.length init + 1) - 1)
      with (Z.of_nat (List.length init)) by lia.
    destruct init as [|y init]; [reflexivity|].
    cbn [app hd_error onsets filter] in *.
    destruct (String.eqb_spec y "_") as [->|_]; [congruence | reflexivity].
Qed.

Lemma encoded_song_renders_one_step_short_witness :
  default_step_duration == default_step_duration
  /\ Forall (fun e => midi_number e = true) [Note 60 1; Rest (1 # 2)]
  /\ encode_song [Note 60 1; Rest (1 # 2)] default_time_step = Ok "60 _ _ _ r _"
  /\ exists stream,
       save_melody (split "60 _ _ _ r _") default_step_duration = Ok stream
       /\ total_duration stream == default_step_duration * inject_Z (6 - 1).
Proof.
  assert (Hsong : Forall (fun e => midi_number e = true)
                    [Note 60 1; Rest (1 # 2)]) by (repeat constructor).
  split; [reflexivity|]. split; [exact Hsong|]. split; [reflexivity|].
  destruct (encoded_song_renders_one_step_short [Note 60 1; Rest (1 # 2)]
              default_time_step default_step_duration "60 _ _ _ r _"
              eq_refl Hsong eq_refl)
    as (stream & Hs & _ & Hdur).
  exists stream. split; [exact Hs|]. apply Hdur. discriminate.
Defined.

(* ================================================================== *)
(** * Encoding with the vocabulary map, and decoding *)
(* ================================================================== *)

Lemma key_of_value_cons (k : string) (v : Z) (d : dict Z) (z : Z) :
  key_of_value ((k, v) :: d) z
  = if v =? z then Ok k else key_of_value d z.
Proof. unfold key_of_value. cbn. destruct (v =? z); reflexivity. Qed.

(** Decoding in a map that numbers [vocab] from [a] on. *)
Lemma key_of_value_numbering (vocab : list string) : forall (a : nat) (z : Z),
  key_of_value (combine vocab (map Z.of_nat (seq a (List.length vocab)))) z
  = match (if Z.of_nat a <=? z
           then nth_error vocab (Z.to_nat z - a) else None) with
    | Some k => Ok k
    | None => Raise IndexError
    end.
Proof.
  induction vocab as [|s vocab IH]; intros a z.
  - cbn. destruct (Z.of_nat a <=? z); [|reflexivity].
    now destruct (Z.to_nat z - a)%nat.
  - cbn [List.length seq map combine]. rewrite key_of_value_cons, IH.
    destruct (Z.eqb_spec (Z.of_nat a) z) as [E|Hne].
    + destruct (Z.leb_spec (Z.of_nat a) z); [|lia].
      replace (Z.to_nat z - a)%nat with 0%nat by lia. reflexivity.
    + destruct (Z.leb_spec (Z.of_nat (S a)) z);
        destruct (Z.leb_spec (Z.of_nat a) z); try lia; [|reflexivity].
      replace (Z.to_nat z - a)%nat with (S (Z.to_nat z - S a)) by lia.
      reflexivity.
Qed.

Lemma key_of_value_build (vocab : list string) (z : Z) :
  NoDup vocab ->
  key_of_value (build_mappings vocab) z
  = match (if 0 <=? z then nth_error vocab (Z.to_nat z) else None) with
    | Some k => Ok k
    | None => Raise IndexError
    end.
Proof.
  intros Hnd. rewrite build_mappings_combine by assumption.
  unfold range. rewrite Nat2Z.id, key_of_value_numbering.
  cbn [Z.of_nat]. now rewrite Nat.sub_0_r.
Qed.

(** In the map of [create_mapping], decoding undoes encoding. *)
Lemma build_mappings_round_trip (vocab : list string) (k : string) (z : Z) :
  NoDup vocab ->
  (dict_get (build_mappings vocab) k = Some z
   <-> key_of_value (build_mappings vocab) z = Ok k).
Proof.
  intros Hnd. rewrite build_mappings_lookup, key_of_value_build by assumption.
  destruct (Z.leb_spec 0 z) as [Hz|Hz].
  - destruct (nth_error vocab (Z.to_nat z)) as [k'|].
    + split; [intros [_ [= ->]]; reflexivity | intros [= ->]; now split].
    + split; [intros [_ H]; discriminate | discriminate].
  - split; [intros [H _]; lia | discriminate].
Qed.

Lemma build_mappings_length (vocab : list string) :
  NoDup vocab -> List.length (build_mappings vocab) = List.length vocab.
Proof.
  intros Hnd. rewrite <- (build_mappings_keys vocab Hnd) at 2.
  unfold keys. now rewrite length_map.
Qed.

Lemma decode_ids (mappings : dict Z) (tokens : list string) (ids : list Z) :
  (forall k z, dict_get mappings k = Some z -> key_of_value mappings z = Ok k) ->
  Forall2 (fun token id => dict_get mappings token = Some id) tokens ids ->
  comprehension (key_of_value mappings) ids = Ok tokens.
Proof.
  intros Hrt. induction 1 as [|token id tokens ids Hid _ IH]; [reflexivity|].
  cbn [comprehension]. rewrite (Hrt _ _ Hid). cbn [bind]. now rewrite IH.
Qed.

Lemma range_NoDup (n : Z) : NoDup (range n).
Proof.
  unfold range. generalize (seq_NoDup (Z.to_nat n) 0).
  generalize (seq 0 (Z.to_nat n)). intros l.
  induction 1 as [|x l Hx _ IH]; cbn [map]; constructor; [|assumption].
  intros Hin. apply in_map_iff in Hin as (y & Hy & Hin).
  apply Nat2Z.inj in Hy. now subst y.
Qed.

Lemma Forall2_In_l {A B : Type} (R : A -> B -> Prop) (l1 : list A)
    (l2 : list B) (x : A) :
  Forall2 R l1 l2 -> In x l1 -> exists y, In y l2 /\ R x y.
Proof.
  induction 1 as [|a b l1 l2 Hab _ IH]; [easy|].
  intros [<-|Hin]; [exists b; split; [now left | assumption]|].
  destruct (IH Hin) as (y & Hy & Hxy). exists y. split; [now right | assumption].
Qed.

Lemma Forall2_In_r {A B : Type} (R : A -> B -> Prop) (l1 : list A)
    (l2 : list B) (y : B) :
  Forall2 R l1 l2 -> In y l2 -> exists x, In x l1 /\ R x y.
Proof.
  induction 1 as [|a b l1 l2 Hab _ IH]; [easy|].
  intros [<-|Hin]; [exists a; split; [now left | assumption]|].
  destruct (IH Hin) as (x & Hx & Hxy). exists x. split; [now right | assumption].
Qed.

Section CodecFacts.

Variable list_set : list string -> list string.
Hypothesis list_set_NoDup : forall l, NoDup (list_set l).
Hypothesis list_set_In : forall l x, In x (list_set l) <-> In x l.

(** X8: in the map [create_mapping] persists, the lookup by value that
    [generate_melody] decodes with is the inverse of the lookup by key:
    a token has id [z] exactly when [z] decodes to that token; and
    decoding an integer raises [IndexError] exactly when it is outside
    [0, len(mappings)). *)
Theorem create_mapping_decodes (songs mapping_path : string) (fs : store) :
  exists mappings,
    dict_get (create_mapping list_set songs mapping_path fs) mapping_path
    = Some (Json mappings)
    /\ (forall k z, dict_get mappings k = Some z
                    <-> key_of_value mappings z = Ok k)
    /\ (forall z, key_of_value mappings z = Raise IndexError
                  <-> ~ (0 <= z < Z.of_nat (List.length mappings))).
Proof.
  set (vocab := list_set (split songs)).
  assert (Hnd : NoDup vocab) by apply list_set_NoDup.
  exists (build_mappings vocab).
  split; [apply dict_get_set_same|].
  split; [intros k z; now apply build_mappings_round_trip|].
  intros z. rewrite key_of_value_build, build_mappings_length by assumption.
  destruct (Z.leb_spec 0 z) as [Hz|Hz].
  - destruct (nth_error vocab (Z.to_nat z)) as [k|] eqn:E.
    + assert (Z.to_nat z < List.length vocab)%nat
        by (apply nth_error_Some; congruence).
      split; [discriminate | lia].
    + apply nth_error_None in E. split; [lia | reflexivity].
  - split; [lia | reflexivity].
Qed.

(** The ids of a corpus under its own map. *)
Lemma corpus_ids (songs : string) (fs : store) :
  exists ids,
    convert_songs_to_int songs
      (create_mapping list_set songs MAPPING_PATH fs) = Ok ids
    /\ Forall2
         (fun token id =>
            dict_get (build_mappings (list_set (split songs))) token = Some id)
         (split songs) ids.
Proof.
  destruct (comprehension_subscript_total
              (build_mappings (list_set (split songs))) (split songs))
    as (ids & Hids & HF).
  { intros token Hin. apply list_set_In in Hin.
    apply build_mappings_defined in Hin as (z & Hz); [|apply list_set_NoDup].
    congruence. }
  exists ids. split; [|assumption].
  unfold convert_songs_to_int, json_load, create_mapping, write.
  rewrite dict_get_set_same. exact Hids.
Qed.

(** X9: the integers [convert_songs_to_int] returns for a corpus, under
    the map made from that corpus, decode back to the tokens of the
    corpus, one by one and in order, with the lookup [generate_melody]
    uses. *)
Theorem convert_songs_to_int_decodes (songs : string) (fs : store) :
  exists mappings ids,
    json_load (create_mapping list_set songs MAPPING_PATH fs) MAPPING_PATH
    = Ok mappings
    /\ convert_songs_to_int songs
         (create_mapping list_set songs MAPPING_PATH fs) = Ok ids
    /\ comprehension (key_of_value mappings) ids = Ok (split songs).
Proof.
  destruct (corpus_ids songs fs) as (ids & Hids & HF).
  exists (build_mappings (list_set (split songs))), ids.
  split; [|split; [assumption|]].
  - unfold json_load, create_mapping, write. now rewrite dict_get_set_same.
  - apply decode_ids; [|assumption].
    intros k z. apply build_mappings_round_trip, list_set_NoDup.
Qed.

(** X10: the number of distinct integers in the converted corpus, which
    [generate_training_sequences] takes as the number of classes, is the
    size of the map, which [generate_melody] takes as the number of
    classes: every id of the map occurs in the corpus. *)
Theorem training_classes_match_inference (songs : string) (fs : store) :
  exists mappings ids,
    json_load (create_mapping list_set songs MAPPING_PATH fs) MAPPING_PATH
    = Ok mappings
    /\ convert_songs_to_int songs
         (create_mapping list_set songs MAPPING_PATH fs) = Ok ids
    /\ List.length (nodup Z.eq_dec ids) = List.length mappings
    /\ forall z, In z ids <-> 0 <= z < Z.of_nat (List.length mappings).
Proof.
  destruct (corpus_ids songs fs) as (ids & Hids & HF).
  set (vocab := list_set (split songs)) in *.
  assert (Hnd : NoDup vocab) by apply list_set_NoDup.
  exists (build_mappings vocab), ids.
  split; [unfold json_load, create_mapping, write;
          now rewrite dict_get_set_same|].
  split; [assumption|].
  assert (Hin : forall z, In z ids
                          <-> 0 <= z < Z.of_nat (List.length vocab)).
  { intros z. split.
    - intros Hz.
      destruct (Forall2_In_r _ _ _ _ HF Hz) as (token & _ & Hget).
      apply build_mappings_lookup in Hget as [H0 Hn]; [|assumption].
      assert (Z.to_nat z < List.length vocab)%nat
        by (apply nth_error_Some; congruence).
      lia.
    - intros [H0 Hlt].
      destruct (nth_error vocab (Z.to_nat z)) as [k|] eqn:E;
        [|apply nth_error_None in E; lia].
      assert (Hk : In k (split songs))
        by (apply list_set_In; eapply nth_error_In, E).
      destruct (Forall2_In_l _ _ _ _ HF Hk) as (id & Hid & Hget).
      assert (Hz : dict_get (build_mappings vocab) k = Some z)
        by (apply build_mappings_lookup; [assumption | now split]).
      congruence. }
  split; [|intros z; now rewrite build_mappings_length].
  rewrite build_mappings_length by assumption.
  rewrite <- (range_length (List.length vocab)).
  apply same_elements_length; [apply NoDup_nodup | |].
  - apply range_NoDup.
  - intros z. rewrite nodup_In, Hin. unfold range.
    rewrite Nat2Z.id, in_map_iff. split.
    + intros [H0 Hlt]. exists (Z.to_nat z). split; [lia|].
      apply in_seq. lia.
    + intros (i & <- & Hi). apply in_seq in Hi. lia.
Qed.

End CodecFacts.

Lemma create_mapping_decodes_witness :
  exists mappings,
    dict_get (create_mapping (nodup string_dec) "60 _ _ r 60 / /"
                MAPPING_PATH []) MAPPING_PATH = Some (Json mappings)
    /\ forall k z, dict_get mappings k = Some z
                   <-> key_of_value mappings z = Ok k.
Proof.
  destruct (create_mapping_decodes (nodup string_dec)
              (NoDup_nodup string_dec) "60 _ _ r 60 / /" MAPPING_PATH [])
    as (mappings & Hfile & Hrt & _).
  exists mappings. auto.
Defined.

Lemma convert_songs_to_int_decodes_witness :
  exists mappings ids,
    convert_songs_to_int "60 _ _ r 60 / /"
      (create_mapping (nodup string_dec) "60 _ _ r 60 / /" MAPPING_PATH [])
    = Ok ids
    /\ comprehension (key_of_value mappings) ids
       = Ok ["60"; "_"; "_"; "r"; "60"; "/"; "/"].
Proof.
  destruct (convert_songs_to_int_decodes (nodup string_dec)
              (NoDup_nodup string_dec) (nodup_In string_dec)
              "60 _ _ r 60 / /" [])
    as (mappings & ids & _ & Hids & Hdec).
  exists mappings, ids. auto.
Defined.

Lemma training_classes_match_inference_witness :
  exists (mappings : dict Z) (ids : list Z),
    convert_songs_to_int "60 _ _ r 60 / /"
      (create_mapping (nodup string_dec) "60 _ _ r 60 / /" MAPPING_PATH [])
    = Ok ids
    /\ List.length (nodup Z.eq_dec ids) = List.length mappings.
Proof.
  destruct (training_classes_match_inference (nodup string_dec)
              (NoDup_nodup string_dec) (nodup_In string_dec)
              "60 _ _ r 60 / /" [])
    as (mappings & ids & _ & Hids & Hlen & _).
  exists mappings, ids. auto.
Defined.

(* ================================================================== *)
(** * The training sequences *)
(* ================================================================== *)

Lemma skipn_nth_error {A : Type} (l : list A) : forall (p : nat) (x : A),
  nth_error l p = Some x -> skipn p l = x :: skipn (S p) l.
Proof.
  induction l as [|y l IH]; intros [|p] x H; try discriminate.
  - now injection H as ->.
  - cbn [skipn]. now apply IH.
Qed.

Lemma firstn_S_nth_error {A : Type} (l : list A) : forall (n : nat) (x : A),
  nth_error l n = Some x -> firstn (S n) l = firstn n l ++ [x].
Proof.
  induction l as [|y l IH]; intros [|n] x H; try discriminate.
  - now injection H as ->.
  - cbn [firstn app]. f_equal. now apply IH.
Qed.

(** [l[i:i+n]] inside the list. *)
Lemma slice_inside (l : list Z) (i n : nat) :
  (i + n <= List.length l)%nat ->
  slice (Z.of_nat i) (Z.of_nat i + Z.of_nat n) l = firstn n (skipn i l).
Proof.
  intros H. unfold slice, clamp_index.
  destruct (Z.ltb_spec (Z.of_nat i) 0); [lia|].
  destruct (Z.ltb_spec (Z.of_nat i + Z.of_nat n) 0); [lia|].
  f_equal.
  - lia.
  - f_equal. lia.
Qed.

(** [l[k]] inside the list. *)
Lemma item_inside (l : list Z) (k : nat) (x : Z) :
  nth_error l k = Some x -> item l (Z.of_nat k) = Ok x.
Proof.
  intros H. assert (E : (Z.of_nat k <? 0) = false) by (apply Z.ltb_ge; lia).
  unfold item. cbv zeta. rewrite E. cbv iota. rewrite E, Nat2Z.id, H.
  reflexivity.
Qed.

(** The targets: the elements from index [n] on. *)
Lemma targets_from (l : list Z) (n : nat) : forall (k a : nat),
  (k <> 0 -> a + n + k <= List.length l)%nat ->
  comprehension (fun i => item l (i + Z.of_nat n)) (map Z.of_nat (seq a k))
  = Ok (firstn k (skipn (a + n) l)).
Proof.
  induction k as [|k IH]; intros a H; [reflexivity|].
  cbn [seq map comprehension].
  destruct (nth_error l (a + n)) as [x|] eqn:E;
    [|apply nth_error_None in E; lia].
  rewrite <- Nat2Z.inj_add, (item_inside l (a + n) x E). cbn [bind].
  rewrite (IH (S a)) by lia. cbn [bind].
  rewrite (skipn_nth_error l (a + n) x E). reflexivity.
Qed.

Lemma windows_spec (n : nat) (l : list Z) :
  List.length (windows n l) = (List.length l - n)%nat
  /\ Forall (fun w => List.length w = n) (windows n l)
  /\ forall i w, nth_error (windows n l) i = Some w ->
       exists target, nth_error (skipn n l) i = Some target
                      /\ w ++ [target] = firstn (S n) (skipn i l).
Proof.
  unfold windows. split; [now rewrite length_map, length_seq|]. split.
  - apply Forall_forall. intros w Hw.
    apply in_map_iff in Hw as (i & <- & Hi). apply in_seq in Hi.
    rewrite length_firstn, length_skipn. lia.
  - intros i w Hw. rewrite nth_error_map in Hw.
    destruct (nth_error (seq 0 _) i) as [j|] eqn:Ej; [|discriminate].
    injection Hw as <-.
    assert (Hi : (i < List.length l - n)%nat).
    { rewrite <- (length_seq (List.length l - n) 0).
      apply nth_error_Some. congruence. }
    rewrite nth_error_seq in Ej.
    destruct (Nat.ltb_spec i (List.length l - n)); [|lia].
    injection Ej as <-. cbn [Nat.add].
    destruct (nth_error l (n + i)) as [target|] eqn:E;
      [|apply nth_error_None in E; lia].
    exists target. rewrite nth_error_skipn. split; [assumption|].
    symmetry. apply firstn_S_nth_error.
    rewrite nth_error_skipn, Nat.add_comm. assumption.
Qed.

Section TrainingFacts.

Variable tensor : Type.
Variable to_categorical : list (list Z) -> Z -> result tensor.

(** X11: for a window length [n >= 0] and a corpus that converts to
    [int_songs], [generate_training_sequences] hands [to_categorical]
    the [len(int_songs) - n] windows of [n] consecutive integers, with
    the number of distinct integers as the number of classes, and
    returns as targets the integers from index [n] on: window [i] is
    followed in the corpus by target [i].  No index is out of range,
    also when the corpus is shorter than the window (no window at
    all). *)
Theorem generate_training_sequences_windows (sequence_length : Z)
    (fs : store) (songs : string) (int_songs : list Z) :
  0 <= sequence_length ->
  load fs SINGLE_FILE_DATASET = Ok songs ->
  convert_songs_to_int songs fs = Ok int_songs ->
  generate_training_sequences tensor to_categorical sequence_length fs
  = (inputs <- to_categorical
                 (windows (Z.to_nat sequence_length) int_songs)
                 (Z.of_nat (List.length (nodup Z.eq_dec int_songs))) ;;
     Ok (inputs, skipn (Z.to_nat sequence_length) int_songs))
  /\ List.length (windows (Z.to_nat sequence_length) int_songs)
     = (List.length int_songs - Z.to_nat sequence_length)%nat
  /\ Forall (fun w => List.length w = Z.to_nat sequence_length)
       (windows (Z.to_nat sequence_length) int_songs)
  /\ forall i w,
       nth_error (windows (Z.to_nat sequence_length) int_songs) i = Some w ->
       exists target,
         nth_error (skipn (Z.to_nat sequence_length) int_songs) i = Some target
         /\ w ++ [target]
            = firstn (S (Z.to_nat sequence_length)) (skipn i int_songs).
Proof.
  intros Hn Hload Hconv. split; [|apply windows_spec].
  set (n := Z.to_nat sequence_length).
  unfold generate_training_sequences. rewrite Hload. cbn [bind].
  rewrite Hconv. cbn [bind].
  assert (Hrange : range (Z.of_nat (List.length int_songs) - sequence_length)
                   = map Z.of_nat (seq 0 (List.length int_songs - n))).
  { unfold range. do 2 f_equal. lia. }
  rewrite Hrange.
  replace sequence_length with (Z.of_nat n) by lia.
  rewrite targets_from by lia. cbn [bind Nat.add].
  rewrite firstn_all2 by (rewrite length_skipn; lia).
  rewrite map_map.
  rewrite (map_ext_in _ (fun i => firstn n (skipn i int_songs))).
  - reflexivity.
  - intros i Hi. apply in_seq in Hi. apply slice_inside. lia.
Qed.

End TrainingFacts.

Lemma generate_training_sequences_windows_witness :
  generate_training_sequences (list (list Z)) (fun y _ => Ok y) 2
    [(SINGLE_FILE_DATASET, Text "a b a c");
     (MAPPING_PATH, Json [("a", 0); ("b", 1); ("c", 2)])]
  = Ok ([[0; 1]; [1; 0]], [0; 2]).
Proof.
  destruct (generate_training_sequences_windows (list (list Z))
              (fun y _ => Ok y) 2
              [(SINGLE_FILE_DATASET, Text "a b a c");
               (MAPPING_PATH, Json [("a", 0); ("b", 1); ("c", 2)])]
              "a b a c" [0; 1; 0; 2]) as (H & _);
    [lia | reflexivity | reflexivity|].
  rewrite H. reflexivity.
Defined.

(* ================================================================== *)
(** * Which key a lookup failure names *)
(* ================================================================== *)

(** The comprehension over the map fails at the first symbol that has no
    entry, and names it. *)
Lemma comprehension_subscript_first (mappings : dict Z) (l : list string)
    (k : string) :
  comprehension (fun symbol => subscript mappings symbol) l
  = Raise (KeyError k)
  <-> exists pre post,
        l = pre ++ k :: post
        /\ Forall (fun symbol => dict_get mappings symbol <> None) pre
        /\ dict_get mappings k = None.
Proof.
  induction l as [|x l IH]; cbn [comprehension].
  - split; [discriminate|]. intros ([|? ?] & post & E & _); discriminate.
  - unfold subscript at 1. destruct (dict_get mappings x) as [v|] eqn:Ex;
      cbn [bind].
    + destruct (comprehension _ l) as [ys|e] eqn:El; cbn [bind].
      * split; [discriminate|].
        intros ([|y pre] & post & E & Hpre & Hk); injection E as -> E.
        -- congruence.
        -- inversion Hpre; subst.
           assert (Raise (KeyError k) = @Ok (list Z) ys); [|discriminate].
           symmetry. apply IH. now exists pre, post.
      * split.
        -- intros H. apply IH in H as (pre & post & -> & Hpre & Hk).
           exists (x :: pre), post. repeat split; try assumption.
           constructor; [congruence | assumption].
        -- intros ([|y pre] & post & E & Hpre & Hk); injection E as -> E.
           ++ congruence.
           ++ inversion Hpre; subst. apply IH. now exists pre, post.
    + split.
      * intros [= <-]. exists [], l. repeat split; [constructor | assumption].
      * intros ([|y pre] & post & E & Hpre & Hk); injection E as -> E.
        -- reflexivity.
        -- inversion Hpre; subst. congruence.
Qed.

(** X12: with the map loaded, [convert_songs_to_int] raises [KeyError k]
    exactly when [k] is the first token of the corpus, in reading order,
    that is not a key of the map. *)
Theorem convert_songs_to_int_names_first_unmapped (songs : string)
    (fs : store) (mappings : dict Z) (k : string) :
  json_load fs MAPPING_PATH = Ok mappings ->
  (convert_songs_to_int songs fs = Raise (KeyError k)
   <-> exists pre post,
         split songs = pre ++ k :: post
         /\ Forall (fun symbol => dict_get mappings symbol <> None) pre
         /\ dict_get mappings k = None).
Proof.
  intros Hload. unfold convert_songs_to_int. rewrite Hload. cbn [bind].
  apply comprehension_subscript_first.
Qed.

Lemma convert_songs_to_int_names_first_unmapped_witness :
  convert_songs_to_int "60 x _ y"
    [(MAPPING_PATH, Json [("60", 0); ("_", 1)])]
  = Raise (KeyError "x").
Proof.
  apply (convert_songs_to_int_names_first_unmapped "60 x _ y"
           [(MAPPING_PATH, Json [("60", 0); ("_", 1)])]
           [("60", 0); ("_", 1)] "x" eq_refl).
  exists ["60"], ["_"; "y"]. split; [reflexivity|]. split; [|reflexivity].
  constructor; [discriminate | constructor].
Defined.

Section SeedFacts.

Variable probabilities : Type.
Variable model_predict : list Z -> Z -> result probabilities.
Variable _sample_with_temperature : probabilities -> Q -> Z -> result Z.
Variable _mappings : dict Z.

(** X13: [generate_melody] maps the start symbols before the seed, so
    the first unmapped token of the start symbols followed by the seed
    is the key its [KeyError] names, and the failure comes before any
    call of the model: no sample is drawn.  When the boundary marker is
    not a key of the map, every call fails with [KeyError "/"], whatever
    the seed. *)
Theorem generate_melody_names_first_unmapped :
  (forall seed num_steps max_sequence_length temperature pre k post,
     _start_symbols ++ split seed = pre ++ k :: post ->
     Forall (fun symbol => dict_get _mappings symbol <> None) pre ->
     dict_get _mappings k = None ->
     generate_melody probabilities model_predict _sample_with_temperature
       _mappings seed num_steps max_sequence_length temperature
     = {| outcome := Raise (KeyError k); sampled := [] |})
  /\ (dict_get _mappings "/" = None ->
      forall seed num_steps max_sequence_length temperature,
      generate_melody probabilities model_predict _sample_with_temperature
        _mappings seed num_steps max_sequence_length temperature
      = {| outcome := Raise (KeyError "/"); sampled := [] |}).
Proof.
  assert (Hfirst : forall seed num_steps max_sequence_length temperature k,
            comprehension (fun symbol => subscript _mappings symbol)
              (_start_symbols ++ split seed) = Raise (KeyError k) ->
            generate_melody probabilities model_predict
              _sample_with_temperature _mappings seed num_steps
              max_sequence_length temperature
            = {| outcome := Raise (KeyError k); sampled := [] |}).
  { intros seed num_steps max_sequence_length temperature k H.
    unfold generate_melody. now rewrite H. }
  split.
  - intros seed num_steps max_sequence_length temperature pre k post E Hpre Hk.
    apply Hfirst, comprehension_subscript_first. now exists pre, post.
  - intros Hnone seed num_steps max_sequence_length temperature.
    apply Hfirst, comprehension_subscript_first.
    exists [], (repeat "/" 63 ++ split seed).
    split; [reflexivity|]. split; [constructor | assumption].
Qed.

(** X14: when the generator returns a melody whose numerals before the
    last token are MIDI numbers, the [/predict] route answers with the
    melody joined by spaces if every token but the last is a hold, a rest
    marker or a numeral of [int], and otherwise fails with the
    [ValueError] of the renderer: a boundary marker or any other token
    [int] refuses inside the seed makes the request fail after the melody
    was generated. *)
Theorem predict_renders_or_fails (seed : string) (melody : list string) :
  outcome (generate_melody probabilities model_predict
             _sample_with_temperature _mappings seed 500 SEQUENCE_LENGTH
             (3 # 10)) = Ok melody ->
  Forall (fun x => midi_numeral x = true) (removelast melody) ->
  (Forall (fun x => readable x = true) (removelast melody) ->
   predict probabilities model_predict _sample_with_temperature _mappings
     seed
   = Ok ("The generated melody: " ++ join " " melody)%string)
  /\ (Exists (fun x => readable x = false) (removelast melody) ->
      predict probabilities model_predict _sample_with_temperature
        _mappings seed = Raise ValueError).
Proof.
  intros H _. unfold predict. rewrite H. cbn [bind].
  destruct melody as [|x melody]; [split; [reflexivity | inversion 1]|].
  destruct (removelast_snoc (x :: melody)) as (final & E); [discriminate|].
  remember (removelast (x :: melody)) as init eqn:Hinit.
  rewrite E. split.
  - intros Hall.
    destruct (save_melody_readable default_step_duration init final Hall)
      as (stream & -> & _). reflexivity.
  - intros Hex.
    now rewrite (save_melody_unreadable default_step_duration init final Hex).
Qed.

End SeedFacts.

Lemma predict_renders_or_fails_witness :
  predict unit (fun _ _ => Ok tt)
    (fun _ _ i => Ok (nth (Z.to_nat i) [1; 2; 2; 0; 1] 1))
    [("/", 0); ("60", 1); ("_", 2)] "60 _"
  = Ok "The generated melody: 60 _ 60 _ _"
  /\ predict unit (fun _ _ => Ok tt)
       (fun _ _ i => Ok (nth (Z.to_nat i) [1; 2; 2; 0; 1] 1))
       [("/", 0); ("60", 1); ("_", 2)] "60 / 60"
     = Raise ValueError.
Proof.
  split.
  - apply (proj1 (predict_renders_or_fails unit (fun _ _ => Ok tt)
                    (fun _ _ i => Ok (nth (Z.to_nat i) [1; 2; 2; 0; 1] 1))
                    [("/", 0); ("60", 1); ("_", 2)] "60 _"
                    ["60"; "_"; "60"; "_"; "_"] eq_refl
                    ltac:(repeat constructor)));
      repeat constructor.
  - apply (proj2 (predict_renders_or_fails unit (fun _ _ => Ok tt)
                    (fun _ _ i => Ok (nth (Z.to_nat i) [1; 2; 2; 0; 1] 1))
                    [("/", 0); ("60", 1); ("_", 2)] "60 / 60"
                    ["60"; "/"; "60"; "60"; "_"; "_"] eq_refl
                    ltac:(repeat constructor))).
    apply Exists_cons_tl, Exists_cons_hd. reflexivity.
Defined.

(* ================================================================== *)
(** * The three stages together *)
(* ================================================================== *)

Lemma create_single_file_dataset_writes
    (os_walk : store -> string -> list string)
    (dataset_path dataset_file_path : string) (sequence_length : Z)
    (fs fs' : store) (songs : string) :
  create_single_file_dataset os_walk dataset_path dataset_file_path
    sequence_length fs = Ok (fs', songs) ->
  fs' = write fs dataset_file_path (Text songs).
Proof.
  unfold create_single_file_dataset.
  destruct (fold_left _ _ _) as [s|e]; cbn [bind]; [|discriminate].
  now intros [= <- <-].
Qed.

Lemma merge_loop_Raise (fs : store) (delimiter : string)
    (paths : list string) e :
  fold_left
    (fun acc file_path =>
       songs <- acc ;;
       song <- load fs file_path ;;
       Ok (songs ++ song ++ " " ++ delimiter)%string)
    paths (Raise e) = Raise e.
Proof. induction paths as [|path paths IH]; simpl; auto. Qed.

(** The merging loop returns only when every file could be read. *)
Lemma merge_loop_returns (fs : store) (delimiter : string)
    (paths : list string) : forall acc songs : string,
  fold_left
    (fun acc file_path =>
       songs <- acc ;;
       song <- load fs file_path ;;
       Ok (songs ++ song ++ " " ++ delimiter)%string)
    paths (Ok acc) = Ok songs ->
  exists contents, comprehension (load fs) paths = Ok contents.
Proof.
  induction paths as [|path paths IH]; cbn [fold_left comprehension bind];
    intros acc songs H.
  - now exists [].
  - destruct (load fs path) as [song|e]; cbn [bind] in *.
    + apply IH in H as (rest & ->). now eexists.
    + rewrite merge_loop_Raise in H. discriminate.
Qed.

(** What [create_single_file_dataset] has done when it returns. *)
Lemma create_single_file_dataset_returns
    (os_walk : store -> string -> list string)
    (dataset_path dataset_file_path : string) (sequence_length : Z)
    (fs fs' : store) (songs : string) :
  create_single_file_dataset os_walk dataset_path dataset_file_path
    sequence_length fs = Ok (fs', songs) ->
  exists contents,
    comprehension (load fs) (os_walk fs dataset_path) = Ok contents
    /\ fs' = write fs dataset_file_path (Text songs)
    /\ songs = drop_last (merged (str_mul "/ " (Z.to_nat sequence_length))
                            contents)
    /\ split songs
       = merged_tokens (Z.to_nat sequence_length) (map split contents).
Proof.
  intros H. pose proof (create_single_file_dataset_writes _ _ _ _ _ _ _ H)
    as Hwrite.
  unfold create_single_file_dataset in H.
  destruct (fold_left _ _ _) as [s|e] eqn:E; cbn [bind] in H; [|discriminate].
  destruct (merge_loop_returns _ _ _ _ _ E) as (contents & Hload).
  rewrite (merge_loop fs _ _ contents "" Hload) in E.
  injection E as <-. injection H as _ <-.
  exists contents. split; [assumption|]. split; [assumption|].
  split; [reflexivity|].
  change ("" ++ merged (str_mul "/ " (Z.to_nat sequence_length)) contents)%string
    with (merged (str_mul "/ " (Z.to_nat sequence_length)) contents).
  rewrite split_drop_last; [apply split_merged|].
  destruct contents as [|song rest]; [now left | right].
  apply merged_ends_with_space; [apply str_mul_boundary_ends|].
  discriminate.
Qed.

Section PipelineFacts.

Variable score : Type.
Variable flat_notesAndRests : score -> list event.
Variable transpose : score -> result score.
Variable converter_parse : string -> result score.
Variable os_path_join : string -> string -> string.
Variable os_walk_tree : string -> list (string * list string).
Variable os_walk : store -> string -> list string.
Variable list_set : list string -> list string.
Hypothesis list_set_NoDup : forall l, NoDup (list_set l).
Hypothesis list_set_In : forall l x, In x (list_set l) <-> In x l.

(** X15: when [main] runs to the end, [preprocess] has returned a store,
    every file [os.walk] finds under [SAVE_DIR] in that store could be
    read, and the store [main] leaves differs from it at two paths only.
    At [SINGLE_FILE_DATASET] it holds the merged corpus: each file's
    content followed by a space and 64 boundary markers, less the last
    character, so that its tokens are each file's tokens followed by 64
    boundary tokens.  At [MAPPING_PATH] it holds a map whose keys are
    exactly the tokens of that corpus: [convert_songs_to_int] on the
    corpus read back from the store returns one id per token (the
    commented-out last stage of [main] cannot fail on a lookup). *)
Theorem main_leaves_corpus_mapped (fs fs' : store) :
  main score flat_notesAndRests transpose converter_parse os_path_join
    os_walk_tree os_walk list_set fs = Ok fs' ->
  exists fs1 contents songs mappings ids,
    preprocess score flat_notesAndRests transpose
      (load_songs_in_kern score converter_parse os_path_join os_walk_tree)
      KERN_DATASET_PATH fs = Ok fs1
    /\ comprehension (load fs1) (os_walk fs1 SAVE_DIR) = Ok contents
    /\ load fs' SINGLE_FILE_DATASET = Ok songs
    /\ songs = drop_last (merged (str_mul "/ " 64) contents)
    /\ split songs = merged_tokens 64 (map split contents)
    /\ json_load fs' MAPPING_PATH = Ok mappings
    /\ (forall token, In token (keys mappings) <-> In token (split songs))
    /\ convert_songs_to_int songs fs' = Ok ids
    /\ Forall2 (fun token id => dict_get mappings token = Some id)
         (split songs) ids
    /\ (forall path, path <> SINGLE_FILE_DATASET -> path <> MAPPING_PATH ->
        dict_get fs' path = dict_get fs1 path).
Proof.
  unfold main.
  destruct (preprocess _ _ _ _ _ fs) as [fs1|e]; cbn [bind]; [|discriminate].
  destruct (create_single_file_dataset _ _ _ _ fs1) as [[fs2 songs]|e] eqn:E;
    cbn [bind]; [|discriminate].
  apply create_single_file_dataset_returns in E
    as (contents & Hcontents & Hfs2 & Hsongs & Hsplit).
  intros [= <-].
  set (mappings := build_mappings (list_set (split songs))).
  assert (Hload : json_load (create_mapping list_set songs MAPPING_PATH fs2)
                    MAPPING_PATH = Ok mappings).
  { unfold json_load, create_mapping, write. now rewrite dict_get_set_same. }
  destruct (comprehension_subscript_total mappings (split songs))
    as (ids & Hids & HF).
  { intros token Hin. apply list_set_In in Hin.
    apply build_mappings_defined in Hin as (z & Hz); [|apply list_set_NoDup].
    unfold mappings. congruence. }
  exists fs1, contents, songs, mappings, ids.
  split; [reflexivity|]. split; [assumption|]. split.
  { unfold load, create_mapping, write.
    rewrite dict_get_set_other by discriminate.
    subst fs2. unfold write. now rewrite dict_get_set_same. }
  split; [exact Hsongs|]. split; [exact Hsplit|]. split; [assumption|].
  split.
  { intros token. unfold mappings.
    rewrite build_mappings_keys by apply list_set_NoDup.
    apply list_set_In. }
  split.
  { unfold convert_songs_to_int. rewrite Hload. exact Hids. }
  split; [assumption|].
  intros path Hs Hm. unfold create_mapping, write.
  rewrite dict_get_set_other by congruence.
  subst fs2. unfold write. now rewrite dict_get_set_other by congruence.
Qed.

End PipelineFacts.

Lemma main_leaves_corpus_mapped_witness :
  exists fs' songs ids,
    main (list event) (fun song => song) sample_transpose
      (fun _ => Ok [Note 60 1]) (fun a b => (a ++ "/" ++ b)%string)
      (fun _ => [("Kern_Dataset/erk", ["a.krn"; "readme.txt"])])
      (fun _ _ => ["Dataset/0"]) (nodup string_dec) [] = Ok fs'
    /\ load fs' SINGLE_FILE_DATASET = Ok songs
    /\ split songs = merged_tokens 64 [["62"; "_"; "_"; "_"]]
    /\ convert_songs_to_int songs fs' = Ok ids.
Proof.
  destruct (main (list event) (fun song => song) sample_transpose
              (fun _ => Ok [Note 60 1]) (fun a b => (a ++ "/" ++ b)%string)
              (fun _ => [("Kern_Dataset/erk", ["a.krn"; "readme.txt"])])
              (fun _ _ => ["Dataset/0"]) (nodup string_dec) [])
    as [fs'|e] eqn:E; [|vm_compute in E; discriminate E].
  destruct (main_leaves_corpus_mapped (list event) (fun song => song)
              sample_transpose (fun _ => Ok [Note 60 1])
              (fun a b => (a ++ "/" ++ b)%string)
              (fun _ => [("Kern_Dataset/erk", ["a.krn"; "readme.txt"])])
              (fun _ _ => ["Dataset/0"]) (nodup string_dec)
              (NoDup_nodup string_dec) (nodup_In string_dec) [] fs' E)
    as (fs1 & contents & songs & mappings & ids & Hfs1 & Hcontents & Hsongs
        & _ & Hsplit & _ & _ & Hids & _).
  exists fs', songs, ids. split; [reflexivity|]. split; [exact Hsongs|].
  split; [|exact Hids].
  rewrite Hsplit. vm_compute in Hfs1. injection Hfs1 as <-.
  vm_compute in Hcontents. injection Hcontents as <-. reflexivity.
Defined.

(* ================================================================== *)
(** * What [preprocess] leaves alone, and when it stops *)
(* ================================================================== *)

Lemma combine_numbering_app {A : Type} (l1 l2 : list A) : forall a : nat,
  combine (map Z.of_nat (seq a (List.length (l1 ++ l2)))) (l1 ++ l2)
  = combine (map Z.of_nat (seq a (List.length l1))) l1
    ++ combine (map Z.of_nat (seq (a + List.length l1) (List.length l2))) l2.
Proof.
  induction l1 as [|x l1 IH]; intros a.
  - simpl. now rewrite Nat.add_0_r.
  - cbn [app List.length seq map combine]. rewrite IH.
    now rewrite Nat.add_succ_r.
Qed.

Section PreprocessFrame.

Variable score : Type.
Variable flat_notesAndRests : score -> list event.
Variable transpose : score -> result score.
Variable load_songs_in_kern : string -> result (list score).

Lemma preprocess_songs_Raise (items : list (Z * score)) e :
  fold_left
    (fun acc '(i, song) =>
       fs <- acc ;;
       preprocess_song score flat_notesAndRests transpose fs i song)
    items (Raise e) = Raise e.
Proof. induction items as [|[i song] items IH]; simpl; auto. Qed.

Lemma preprocess_songs_cons (i : Z) (song : score)
    (items : list (Z * score)) (fs : store) :
  preprocess_songs score flat_notesAndRests transpose ((i, song) :: items) fs
  = (fs <- preprocess_song score flat_notesAndRests transpose fs i song ;;
     preprocess_songs score flat_notesAndRests transpose items fs).
Proof.
  unfold preprocess_songs. cbn [fold_left bind].
  destruct (preprocess_song _ _ _ fs i song); cbn [bind];
    [reflexivity | apply preprocess_songs_Raise].
Qed.

Lemma preprocess_songs_app (items1 items2 : list (Z * score)) :
  forall fs : store,
  preprocess_songs score flat_notesAndRests transpose (items1 ++ items2) fs
  = (fs <- preprocess_songs score flat_notesAndRests transpose items1 fs ;;
     preprocess_songs score flat_notesAndRests transpose items2 fs).
Proof.
  induction items1 as [|[i song] items1 IH]; intros fs; [reflexivity|].
  cbn [app]. rewrite !preprocess_songs_cons.
  destruct (preprocess_song _ _ _ fs i song); cbn [bind]; auto.
Qed.

(** One song is either skipped or written to its own path. *)
Lemma preprocess_song_writes (fs fs1 : store) (i : Z) (song : score) :
  preprocess_song score flat_notesAndRests transpose fs i song = Ok fs1 ->
  fs1 = fs \/ exists text, fs1 = write fs (song_path i) (Text text).
Proof.
  unfold preprocess_song.
  destruct (negb _); [intros [= <-]; now left|].
  destruct (transpose song) as [song'|e]; cbn [bind]; [|discriminate].
  destruct (encode_song _ _) as [text|e]; cbn [bind]; [|discriminate].
  intros [= <-]. right. now exists text.
Qed.

Lemma preprocess_songs_frame (items : list (Z * score)) :
  forall (fs fs' : store) (path : string),
  preprocess_songs score flat_notesAndRests transpose items fs = Ok fs' ->
  (forall i, path <> song_path i) ->
  dict_get fs' path = dict_get fs path.
Proof.
  induction items as [|[i song] items IH]; intros fs fs' path H Hpath.
  - now injection H as <-.
  - rewrite preprocess_songs_cons in H.
    destruct (preprocess_song _ _ _ fs i song) as [fs1|e] eqn:E;
      cbn [bind] in H; [|discriminate].
    rewrite (IH fs1 fs' path H Hpath).
    apply preprocess_song_writes in E as [->|(text & ->)]; [reflexivity|].
    apply dict_get_set_other. intros Heq. now apply (Hpath i).
Qed.

(** X16: a run of [preprocess] that ends leaves every file of the store
    as it was, except the files [Dataset/<number>]: it writes nowhere
    else. *)
Theorem preprocess_writes_song_files_only (dataset_path : string)
    (fs fs' : store) (path : string) :
  preprocess score flat_notesAndRests transpose load_songs_in_kern
    dataset_path fs = Ok fs' ->
  (forall i, path <> song_path i) ->
  dict_get fs' path = dict_get fs path.
Proof.
  unfold preprocess.
  destruct (load_songs_in_kern dataset_path) as [songs|e]; cbn [bind];
    [|discriminate].
  apply preprocess_songs_frame.
Qed.

(** X17: [preprocess] stops at the first accepted score that music21
    fails to transpose, with the exception of that transposition; the
    scores after it are not looked at, whether accepted or not. *)
Theorem preprocess_stops_at_failed_transposition (dataset_path : string)
    (fs : store) (before after : list score) (song : score) e :
  load_songs_in_kern dataset_path = Ok (before ++ song :: after) ->
  (forall song', In song' before -> accepted flat_notesAndRests song' = true ->
                 exists transposed, transpose song' = Ok transposed) ->
  accepted flat_notesAndRests song = true ->
  transpose song = Raise e ->
  preprocess score flat_notesAndRests transpose load_songs_in_kern
    dataset_path fs = Raise e.
Proof.
  intros Hload Hbefore Hacc Hfail. unfold preprocess. rewrite Hload.
  cbn [bind]. unfold enumerate, range. rewrite Nat2Z.id.
  rewrite combine_numbering_app, preprocess_songs_app.
  destruct (preprocess_songs_from score flat_notesAndRests transpose
              before Hbefore 0 fs) as (fs1 & -> & _).
  cbn [bind List.length seq map combine].
  rewrite preprocess_songs_cons.
  unfold preprocess_song at 1. unfold accepted in Hacc.
  rewrite Hacc, Hfail. reflexivity.
Qed.

End PreprocessFrame.

Lemma preprocess_writes_song_files_only_witness :
  exists fs',
    preprocess (list event) (fun song => song) sample_transpose
      (fun _ => Ok sample_corpus) "Kern_Dataset/erk"
      [(MAPPING_PATH, Json [("/", 0)])] = Ok fs'
    /\ dict_get fs' MAPPING_PATH = Some (Json [("/", 0)]).
Proof.
  destruct (preprocess (list event) (fun song => song) sample_transpose
              (fun _ => Ok sample_corpus) "Kern_Dataset/erk"
              [(MAPPING_PATH, Json [("/", 0)])]) as [fs'|e] eqn:E;
    [|vm_compute in E; discriminate E].
  exists fs'. split; [reflexivity|].
  rewrite (preprocess_writes_song_files_only (list event) (fun song => song)
             sample_transpose (fun _ => Ok sample_corpus) "Kern_Dataset/erk"
             [(MAPPING_PATH, Json [("/", 0)])] fs' MAPPING_PATH E).
  - reflexivity.
  - intros i. discriminate.
Defined.

Lemma preprocess_stops_at_failed_transposition_witness :
  preprocess (list event) (fun song => song)
    (fun song => match song with
                 | [Rest _] => Raise (ExternalError 7)
                 | _ => Ok song
                 end)
    (fun _ => Ok [[Note 60 1]; [Rest 1]; [Note 62 1]]) "Kern_Dataset/erk" []
  = Raise (ExternalError 7).
Proof.
  apply (preprocess_stops_at_failed_transposition (list event)
           (fun song => song)
           (fun song => match song with
                        | [Rest _] => Raise (ExternalError 7)
                        | _ => Ok song
                        end)
           (fun _ => Ok [[Note 60 1]; [Rest 1]; [Note 62 1]])
           "Kern_Dataset/erk" [] [[Note 60 1]] [[Note 62 1]] [Rest 1]
           (ExternalError 7) eq_refl).
  - intros song' [<-|[]] _. eexists. reflexivity.
  - reflexivity.
  - reflexivity.
Defined.

Lemma save_melody_event_count_witness :
  List.length [Note 60 (3 # 4); Rest (2 # 4)]
  = List.length (onsets (removelast ["_"; "60"; "_"; "r"; "_"; "62"])).
Proof.
  exact (save_melody_event_count ["_"; "60"; "_"; "r"; "_"; "62"]
           default_step_duration [Note 60 (3 # 4); Rest (2 # 4)] eq_refl).
Defined.

Lemma save_melody_one_step_short_witness :
  default_step_duration == default_step_duration
  /\ save_melody ["_"; "60"; "_"; "r"; "_"; "62"] default_step_duration
     = Ok [Note 60 (3 # 4); Rest (2 # 4)]
  /\ total_duration [Note 60 (3 # 4); Rest (2 # 4)]
     == default_step_duration * inject_Z (6 - 1).
Proof.
  split; [reflexivity|]. split; [reflexivity|].
  exact (save_melody_one_step_short ["_"; "60"; "_"; "r"; "_"; "62"]
           default_step_duration [Note 60 (3 # 4); Rest (2 # 4)]
           eq_refl eq_refl).
Defined.

Lemma save_melody_fails_on_unreadable_witness :
  default_step_duration == default_step_duration
  /\ Forall (fun x => midi_numeral x = true)
       (removelast ["60"; "_"; "/"; "r"; "x"])
  /\ save_melody ["60"; "_"; "/"; "r"; "x"] default_step_duration
     = Raise ValueError
  /\ exists stream,
       save_melody ["60"; "_"; "r"; "x"] default_step_duration = Ok stream.
Proof.
  split; [reflexivity|]. split; [repeat constructor|]. split.
  - apply (proj2 (save_melody_fails_on_unreadable
                    ["60"; "_"; "/"; "r"; "x"] default_step_duration
                    eq_refl ltac:(repeat constructor))).
    apply Exists_cons_tl, Exists_cons_tl, Exists_cons_hd. reflexivity.
  - apply (proj1 (save_melody_fails_on_unreadable
                    ["60"; "_"; "r"; "x"] default_step_duration
                    eq_refl ltac:(repeat constructor))).
    repeat constructor.
Defined.
